(** * Parking finder demo: the destination-to-results pipeline

    A shallow embedding of the logic in [app.js] (two revisions of the
    client are in the repository: [src/app.js], the earlier one, and the
    later revision with [mapBackendParking] and [parkingByDest]) and of
    the [GET /api/v1/parking] handler of [backend/server.js].

    How JavaScript data is represented:
    - counts ([capacity], [available_spots], [available]) are integers: [Z];
    - coordinates of fixture records are decimal literals: [Q];
    - the haversine distance is computed in exact real arithmetic ([R]);
      rounding of IEEE doubles is not modelled there;
    - the arithmetic of the occupancy chart, where a division by zero
      matters, is computed on IEEE binary64 doubles ([PrimFloat]);
    - strings are sequences of code units below 256 ([string]);
    - a value received as JSON is a [JSValue]. *)

From Stdlib Require Import ZArith QArith Qround Reals Lra Lia String Ascii List.
From Stdlib Require Import Sorting.Permutation Sorting.Sorted.
From Stdlib Require PrimFloat FloatOps SpecFloat FloatAxioms.
From stdpp Require Import base option list strings gmap.

(** ** JavaScript numbers as IEEE binary64 doubles *)

Module JSNum.
Export PrimFloat FloatOps SpecFloat.

(** An integer read as a Number: the nearest double. *)
Definition Z2F (z : Z) : float := SF2Prim (binary_normalize prec emax z 0 false).

(** [Math.max(a, b)]: NaN if either is NaN, and [+0] is larger than [-0]. *)
Definition Math_max (a b : float) : float :=
  if is_nan a || is_nan b then nan
  else if (a <? b)%float then b
  else if (b <? a)%float then a
  else if is_zero a && get_sign a then b else a.

(** [Math.round(x)]: the integer closest to [x], ties towards +∞.
    NaN, the infinities and the zeros are returned unchanged; a value in
    [[-0.5, 0)] gives [-0]. The rounding is computed exactly on the
    mantissa and exponent of [x]. *)
Definition Math_round (x : float) : float :=
  match Prim2SF x with
  | S754_finite s m e =>
      if (0 <=? e)%Z then x
      else
        let z := if s then Z.neg m else Z.pos m in
        let r := ((2 * z + 2 ^ (- e)) / 2 ^ (1 - e))%Z in
        if (r =? 0)%Z then (if s then neg_zero else zero) else Z2F r
  | _ => x
  end.

End JSNum.

(** ** Great-circle distance ([distanceMeters]) in exact real arithmetic *)

Module Geo.
Local Open Scope R_scope.

(** A point [{lat, lng}], in degrees. *)
Record LatLng := { lat : R; lng : R }.

(** [const R = 6371000] (named [R] in the source). *)
Definition R_earth : R := 6371000.

(** [toRad = d => d * Math.PI / 180]. *)
Definition toRad (d : R) : R := d * PI / 180.

(** The constant [h] of [distanceMeters]:
    [Math.sin(dLat/2)**2 + Math.cos(la1)*Math.cos(la2)*Math.sin(dLng/2)**2]. *)
Definition hav (a b : LatLng) : R :=
  let dLat := toRad (lat b - lat a) in
  let dLng := toRad (lng b - lng a) in
  let la1 := toRad (lat a) in
  let la2 := toRad (lat b) in
  sin (dLat / 2) ^ 2 + cos la1 * cos la2 * sin (dLng / 2) ^ 2.

(** [return 2*R*Math.asin(Math.sqrt(h))]. *)
Definition distanceMeters (a b : LatLng) : R :=
  2 * R_earth * asin (sqrt (hav a b)).

(** Valid coordinates: latitude within ±90°, longitude within ±180°. *)
Definition valid (p : LatLng) : Prop :=
  -90 <= lat p <= 90 ∧ -180 <= lng p <= 180.

End Geo.

(** ** The in-memory data source ([mock]) *)

Module Mock.

(** A lot of the client-side model. *)
Record Lot := {
  id : string;
  name : string;
  lat : Q;
  lng : Q;
  capacity : Z;
  available_spots : Z;
  price : option string;
  updated_at : string
}.

(** [lots[i].available_spots = v] and [lots[i].updated_at = t]. *)
Definition set_available_spots (v : Z) (l : Lot) : Lot :=
  {| id := id l; name := name l; lat := lat l; lng := lng l;
     capacity := capacity l; available_spots := v;
     price := price l; updated_at := updated_at l |}.

Definition set_updated_at (t : string) (l : Lot) : Lot :=
  {| id := id l; name := name l; lat := lat l; lng := lng l;
     capacity := capacity l; available_spots := available_spots l;
     price := price l; updated_at := t |}.

(** The initial value of [mock]'s store, [let lots = [...]]; [now] is what
    [new Date().toISOString()] returned when the module was loaded. *)
Definition fixture (now : string) : list Lot :=
  [ {| id := "CP-101"; name := "Flinders Lane Car Park"; lat := -37.8173; lng := 144.9655;
       capacity := 220; available_spots := 88; price := Some "$3/hr"; updated_at := now |};
    {| id := "CP-102"; name := "Russell St Car Park"; lat := -37.8128; lng := 144.9675;
       capacity := 160; available_spots := 47; price := Some "$4/hr"; updated_at := now |};
    {| id := "CP-103"; name := "QV Car Park"; lat := -37.8106; lng := 144.9652;
       capacity := 120; available_spots := 12; price := Some "$5/hr"; updated_at := now |};
    {| id := "CP-201"; name := "Derby Rd Car Park"; lat := -37.8779; lng := 145.0449;
       capacity := 180; available_spots := 61; price := Some "$3/hr"; updated_at := now |};
    {| id := "CP-202"; name := "Caulfield Plaza Car Park"; lat := -37.8765; lng := 145.0431;
       capacity := 140; available_spots := 9; price := Some "$3/hr"; updated_at := now |} ].

(** The point of a lot, as [haversine] reads it ([p.lat], [p.lng]). *)
Definition pos (p : Lot) : Geo.LatLng :=
  {| Geo.lat := Q2R (lat p); Geo.lng := Q2R (lng p) |}.

(** [mock]'s own [toRad] and [haversine]. *)
Definition toRad (d : R) : R := (d * PI / 180)%R.

Definition haversine (a b : Geo.LatLng) : R :=
  let R_earth := 6371000%R in
  let dLat := toRad (Geo.lat b - Geo.lat a) in
  let dLng := toRad (Geo.lng b - Geo.lng a) in
  let la1 := toRad (Geo.lat a) in
  let la2 := toRad (Geo.lat b) in
  let h := (sin (dLat / 2) ^ 2 + cos la1 * cos la2 * sin (dLng / 2) ^ 2)%R in
  (2 * R_earth * asin (sqrt h))%R.

#[global] Instance Rle_decision (x y : R) : Decision (x <= y)%R := Rle_dec x y.
#[global] Instance Rlt_decision (x y : R) : Decision (x < y)%R := Rlt_dec x y.

(** [Array.prototype.sort(cmp)]: a stable sort. [insert_by] puts an
    element before the elements that followed it in the array unless the
    comparator is positive, so that equal elements keep their order. *)
Fixpoint insert_by {A} (cmp : A → A → R) (x : A) (l : list A) : list A :=
  match l with
  | [] => [x]
  | y :: l' => if decide (0 < cmp x y)%R then y :: insert_by cmp x l'
               else x :: y :: l'
  end.

Definition Array_sort {A} (cmp : A → A → R) (l : list A) : list A :=
  foldr (insert_by cmp) [] l.

(** The comparator [(a, b) => key(a) - key(b)] and the order it sorts by. *)
Definition by_key {A} (key : A → R) (a b : A) : R := (key a - key b)%R.

Definition le_key {A} (key : A → R) (a b : A) : Prop := (key a <= key b)%R.

(** [lots.map(p => ({...p, _d: haversine(c, p)}))]: a lot with its [_d]. *)
Definition decorate (c : Geo.LatLng) (lots : list Lot) : list (Lot * R) :=
  (λ p, (p, haversine c (pos p))) <$> lots.

(** [parkingNear(lat, lng, radius = 900)] on the store [lots]. An absent
    [radius] is 900. The object copies [{...p}] are the records
    themselves; [.map(({_d, ...r}) => r)] drops the [_d]. *)
Definition parkingNear (lots : list Lot) (lat lng : R) (radius : option R) : list Lot :=
  let radius := default 900%R radius in
  let c := {| Geo.lat := lat; Geo.lng := lng |} in
  let items := filter (λ p, (haversine c (pos p) <= radius)%R) lots in
  match items with
  | [] =>
      let nearest :=
        fst <$> take 3 (Array_sort (λ a b, (a.2 - b.2)%R) (decorate c lots)) in
      nearest
  | _ => items
  end.

(** What the platform returns on the [k]-th pair of calls made by
    [pushUpdates]: [Math.random()], a double read as the rational it
    denotes, and [new Date().toISOString()]. *)
Record Env := {
  Math_random : nat → Q;
  Date_toISOString : nat → string
}.

(** [lots.findIndex(l => l.id === id)]; [None] stands for [-1]. *)
Definition findIndex (i : string) (lots : list Lot) : option nat :=
  fst <$> list_find (λ l, id l = i) lots.

(** [Math.floor((Math.random() - 0.5) * 8)], computed in exact arithmetic
    on the rational the random double denotes. On doubles the subtraction
    rounds when the random number is below 0.25, so for a random number
    just below a multiple of 1/8 the code can give the next integer
    (for 0.125 - 2^-56 it gives -3, and this function -4). For a random
    number in [[0, 1)] both are integers from -4 to 3. *)
Definition delta_of (r : Q) : Z := Qfloor ((r - 0.5) * 8).

(** The loop of [pushUpdates]. The state is the store, the number [k]
    of updates made so far and the [changes] array. [None] stands for
    the [TypeError] that reading a field of [lots[i]] raises when
    [lots[i]] is [undefined]. *)
Fixpoint pushUpdates_loop (E : Env) (ids : list string)
    (lots : list Lot) (k : nat) (changes : list Lot)
    : option (list Lot * list Lot * nat) :=
  match ids with
  | [] => Some (changes, lots, k)
  | i :: ids' =>
      match findIndex i lots with
      | None => pushUpdates_loop E ids' lots k changes
      | Some n =>
          l ← lots !! n;
          let delta := delta_of (Math_random E k) in
          let l1 := set_available_spots
                      (Z.max 0 (Z.min (capacity l) (available_spots l + delta))) l in
          let l2 := set_updated_at (Date_toISOString E k) l1 in
          pushUpdates_loop E ids' (<[n := l2]> lots) (S k) (changes ++ [l2])
      end
  end.

(** [pushUpdates(ids)]: the returned [changes] and the store afterwards. *)
Definition pushUpdates (E : Env) (ids : list string) (lots : list Lot)
    : option (list Lot * list Lot) :=
  r ← pushUpdates_loop E ids lots 0 [];
  Some (r.1.1, r.1.2).

(** The record [lots[i]] after one iteration of the loop body. *)
Definition updated (E : Env) (k : nat) (l : Lot) : Lot :=
  set_updated_at (Date_toISOString E k)
    (set_available_spots
       (Z.max 0 (Z.min (capacity l) (available_spots l + delta_of (Math_random E k)))) l).

(** The invariant of the data model: [0 ≤ available_spots ≤ capacity]. *)
Definition in_range (l : Lot) : Prop := (0 ≤ available_spots l ≤ capacity l)%Z.

(** [l'] has the [id], [name], [lat], [lng], [capacity] and [price] of [l]. *)
Definition same_static (l l' : Lot) : Prop :=
  id l' = id l ∧ name l' = name l ∧ lat l' = lat l ∧ lng l' = lng l ∧
  capacity l' = capacity l ∧ price l' = price l.

(** What an update for [ids] may do to a lot [l] of the store. *)
Definition framed (ids : list string) (l l' : Lot) : Prop :=
  same_static l l' ∧ (id l ∉ ids → l' = l).

(** [Math.random()] returns a number in [[0, 1)]. *)
Definition random_in_range (E : Env) : Prop :=
  ∀ k, (0 <= Math_random E k)%Q ∧ (Math_random E k < 1)%Q.

(** What one call of [pushUpdates] for [ids] does to the count of a lot:
    it moves by at most 4, and not at all when the lot is not listed. *)
Definition moved (ids : list string) (l l' : Lot) : Prop :=
  id l' = id l ∧ (Z.abs (available_spots l' - available_spots l) ≤ 4)%Z ∧
  (id l ∉ ids → l' = l).

(** [res] are lots of [lots] nearest to [c]: the other lots of the
    store are at least as far away as each of them. *)
Definition nearest_of (c : Geo.LatLng) (lots res : list Lot) : Prop :=
  ∃ rest, res ++ rest ≡ₚ lots ∧
    ∀ x y, x ∈ res → y ∈ rest → (haversine c (pos x) <= haversine c (pos y))%R.

End Mock.

(** ** Occupancy percentage of the bar chart ([renderCharts]) *)

Module Charts.
Import JSNum.

(** [src/app.js], line 171:
    [Math.round((l.capacity - l.available_spots) / l.capacity * 100)]. *)
Definition occupancy_pct_app_js (capacity available_spots : float) : float :=
  Math_round ((capacity - available_spots) / capacity * 100)%float.

(** The later revision, line 313:
    [Math.round((l.capacity - l.available_spots) / Math.max(1, l.capacity) * 100)]. *)
Definition occupancy_pct (capacity available_spots : float) : float :=
  Math_round ((capacity - available_spots) / Math_max 1 capacity * 100)%float.

(** [const occ = lots.map(l => ...)] on lots with integer counts, in
    [src/app.js] and in the later revision. *)
Definition occ_app_js (lots : list Mock.Lot) : list float :=
  (λ l, occupancy_pct_app_js (Z2F (Mock.capacity l)) (Z2F (Mock.available_spots l)))
    <$> lots.

Definition occ (lots : list Mock.Lot) : list float :=
  (λ l, occupancy_pct (Z2F (Mock.capacity l)) (Z2F (Mock.available_spots l)))
    <$> lots.

End Charts.

(** ** Normalisation of a wire record ([mapBackendParking]) *)

Module Client.
Import JSNum.

(** A value as [JSON.parse] or a property read can produce it. An object
    or array is known by its reference only. *)
Inductive JSValue :=
| JUndefined
| JNull
| JBoolean (b : bool)
| JNumber (x : float)
| JString (s : string)
| JObject (ref : positive).

(** [typeof v]. *)
Definition typeof (v : JSValue) : string :=
  match v with
  | JUndefined => "undefined"
  | JNull => "object"
  | JBoolean _ => "boolean"
  | JNumber _ => "number"
  | JString _ => "string"
  | JObject _ => "object"
  end.

(** [a ?? b]. *)
Definition nullish (a b : JSValue) : JSValue :=
  match a with
  | JUndefined | JNull => b
  | _ => a
  end.

(** Truthiness, for [a || b]. *)
Definition truthy (v : JSValue) : bool :=
  match v with
  | JUndefined | JNull => false
  | JBoolean b => b
  | JNumber x => negb (is_zero x || is_nan x)
  | JString s => negb (String.eqb s EmptyString)
  | JObject _ => true
  end.

Definition or_else (a b : JSValue) : JSValue := if truthy a then a else b.

(** A wire record is an object; reading a property it does not have
    gives [undefined]. *)
Definition get (p : gmap string JSValue) (k : string) : JSValue :=
  default JUndefined (p !! k).

(** The object literal [mapBackendParking] returns. *)
Record FrontLot := {
  id : JSValue;
  name : JSValue;
  lat : JSValue;
  lng : JSValue;
  capacity : JSValue;
  available_spots : JSValue;
  price : JSValue;
  updated_at : JSValue
}.

(** [mapBackendParking(p)]; [now] is [new Date().toISOString()]. *)
Definition mapBackendParking (now : string) (p : gmap string JSValue) : FrontLot :=
  {| id := get p "id";
     name := get p "name";
     lat := get p "lat";
     lng := get p "lng";
     capacity := get p "capacity";
     available_spots :=
       if String.eqb (typeof (get p "available_spots")) "number"
       then get p "available_spots"
       else nullish (get p "available") (JNumber 0);
     price := get p "price";
     updated_at := or_else (get p "updated_at") (JString now) |}.

(** The formula of the specification's wire-shape note:
    [available_spots ?? available ?? 0]. *)
Definition spec_available_spots (p : gmap string JSValue) : JSValue :=
  nullish (get p "available_spots") (nullish (get p "available") (JNumber 0)).

(* Decimal literals denote the nearest double, as [JSON.parse] reads them. *)
#[local] Set Warnings "-inexact-float".

(** A wire record whose [available_spots] is present but is a string. *)
Definition wire_with_string_spots : gmap string JSValue :=
  list_to_map
    [ ("id", JString "PARK001"); ("name", JString "Flinders St Car Park");
      ("lat", JNumber (-37.8183)); ("lng", JNumber 144.9671);
      ("capacity", JNumber 200); ("available", JNumber 35);
      ("available_spots", JString "35") ].

(** The record the service sends for PARK001. *)
Definition wire_park001 : gmap string JSValue :=
  list_to_map
    [ ("id", JString "PARK001"); ("name", JString "Flinders St Car Park");
      ("lat", JNumber (-37.8183)); ("lng", JNumber 144.9671);
      ("capacity", JNumber 200); ("available", JNumber 35) ].

Definition is_nullish (v : JSValue) : Prop := v = JUndefined ∨ v = JNull.

Definition is_number (v : JSValue) : Prop := ∃ x, v = JNumber x.

(** A wire record as a service sends it: [available_spots], when the
    record has one, is a number. *)
Definition count_well_typed (w : gmap string JSValue) : Prop :=
  is_number (get w "available_spots") ∨ is_nullish (get w "available_spots").

End Client.

(** ** Choosing a destination ([chooseDestination]) as an event trace

    [chooseDestination] is an [async] function with one [await]: the part
    before the [await] runs when the function is called, the part after it
    runs when the lot fetch of that call completes. Each part runs to
    completion; the parts of different calls interleave in any order. *)

Module Resolve.
Import Mock.

Record Place := {
  place_name : string;
  place_lat : Q;
  place_lng : Q
}.

Definition place_pos (p : Place) : Geo.LatLng :=
  {| Geo.lat := Q2R (place_lat p); Geo.lng := Q2R (place_lng p) |}.

(** A fetched lot after [it.distance_m = distanceMeters(place, it)]. *)
Record View := { lot : Lot; distance_m : R }.

(** [statusEl.textContent]. *)
Inductive Status :=
| Blank
| Loading
| Showing (n : nat) (near : string)
| NoCarParks.

(** The page: the search box, [currentDestination], the status line,
    the lot cards and markers in display order, and the calls of
    [chooseDestination] that are suspended at their [await], each with
    the [place] it was called with. *)
Record Page := {
  searchBox : string;
  currentDestination : option Place;
  statusEl : Status;
  shown : list View;
  suspended : gmap nat Place;
  calls : nat
}.

Definition initial : Page :=
  {| searchBox := EmptyString; currentDestination := None; statusEl := Blank;
     shown := []; suspended := ∅; calls := 0 |}.

(** [Choose place]: [chooseDestination(place)] is called. [Arrive call items]:
    the fetch awaited by the [call]-th call completes with [items]. *)
Inductive Event :=
| Choose (place : Place)
| Arrive (call : nat) (items : list Lot).

(** Up to the [await] (lines 62–68 of [src/app.js], 134–142 of the later
    revision). *)
Definition chooseDestination_call (place : Place) (pg : Page) : Page :=
  {| searchBox := place_name place;
     currentDestination := Some place;
     statusEl := Loading;
     shown := shown pg;
     suspended := <[calls pg := place]> (suspended pg);
     calls := S (calls pg) |}.

Definition enrich (place : Place) (items : list Lot) : list View :=
  (λ it, {| lot := it;
            distance_m := Geo.distanceMeters (place_pos place) (pos it) |}) <$> items.

(** After the [await] (lines 70–82 of [src/app.js], 144–158 of the later
    revision), with the [place] of that call and the [items] its fetch
    returned: [mock.parkingNear]'s lots, or the lots of the service's
    response. *)
Definition chooseDestination_resume (place : Place) (items : list Lot) (pg : Page) : Page :=
  {| searchBox := searchBox pg;
     currentDestination := currentDestination pg;
     statusEl := match items with
                 | [] => NoCarParks
                 | _ => Showing (length items) (place_name place)
                 end;
     shown := enrich place items;
     suspended := suspended pg;
     calls := calls pg |}.

Definition step (pg : Page) (e : Event) : Page :=
  match e with
  | Choose place => chooseDestination_call place pg
  | Arrive call items =>
      match suspended pg !! call with
      | Some place =>
          chooseDestination_resume place items
            {| searchBox := searchBox pg;
               currentDestination := currentDestination pg;
               statusEl := statusEl pg;
               shown := shown pg;
               suspended := delete call (suspended pg);
               calls := calls pg |}
      | None => pg
      end
  end.

Definition run (pg : Page) (trace : list Event) : Page := foldl step pg trace.

(** The visible snapshot is the one of a resolve of [place] that
    fetched [items]. *)
Definition snapshot_of (place : Place) (items : list Lot) (pg : Page) : Prop :=
  shown pg = enrich place items ∧
  statusEl pg = match items with
                | [] => NoCarParks
                | _ => Showing (length items) (place_name place)
                end.

(** Two destinations and the lots the service returns for their names. *)
Definition flinders_street : Place :=
  {| place_name := "Flinders Street"; place_lat := -37.8183; place_lng := 144.9671 |}.

Definition southgate : Place :=
  {| place_name := "Southgate"; place_lat := -37.8203; place_lng := 144.9657 |}.

Definition lots_flinders_street : list Lot :=
  [ {| id := "PARK001"; name := "Flinders St Car Park"; lat := -37.8183; lng := 144.9671;
       capacity := 200; available_spots := 35; price := None;
       updated_at := "2025-01-01T00:00:00.000Z" |} ].

Definition lots_southgate : list Lot :=
  [ {| id := "PARK005"; name := "Southgate Car Park"; lat := -37.8203; lng := 144.9657;
       capacity := 300; available_spots := 60; price := None;
       updated_at := "2025-01-01T00:00:00.000Z" |} ].

End Resolve.

(** ** The service: [GET /api/v1/parking] *)

Module Server.

Record ServiceLot := {
  id : string;
  name : string;
  lat : Q;
  lng : Q;
  capacity : Z;
  available : Z
}.

Definition data : list ServiceLot :=
  [ {| id := "PARK001"; name := "Flinders St Car Park"; lat := -37.8183; lng := 144.9671;
       capacity := 200; available := 35 |};
    {| id := "PARK002"; name := "Fed Square Parking"; lat := -37.8179; lng := 144.9691;
       capacity := 150; available := 50 |};
    {| id := "PARK003"; name := "QV Melbourne Parking"; lat := -37.8103; lng := 144.9643;
       capacity := 500; available := 120 |};
    {| id := "PARK004"; name := "Melbourne Central CP"; lat := -37.8107; lng := 144.9626;
       capacity := 450; available := 80 |};
    {| id := "PARK005"; name := "Southgate Car Park"; lat := -37.8203; lng := 144.9657;
       capacity := 300; available := 60 |} ].

(** [req.query] of a request in which each parameter occurs once or not
    at all: a string or absent. [ServerRequest] has the requests whose
    parameters are arrays or objects. *)
Record Query := {
  q_dest : option string;
  q_lat : option string;
  q_lng : option string;
  q_radius : option string
}.

(** A string in a condition: absent and [''] are false. *)
Definition truthy (o : option string) : bool :=
  match o with
  | Some s => negb (String.eqb s EmptyString)
  | None => false
  end.

(** [String.prototype.toLowerCase] on code units below 256. *)
Definition lower_char (c : ascii) : ascii :=
  let n := N_of_ascii c in
  if ((65 <=? n) && (n <=? 90) || (192 <=? n) && (n <=? 214)
      || (216 <=? n) && (n <=? 222))%N
  then ascii_of_N (n + 32) else c.

Fixpoint toLowerCase (s : string) : string :=
  match s with
  | EmptyString => EmptyString
  | String c s' => String (lower_char c) (toLowerCase s')
  end.

(** White space of [trim] and of [\s], below 256. *)
Definition is_space (c : ascii) : bool :=
  let n := N_of_ascii c in
  ((9 <=? n) && (n <=? 13) || (n =? 32) || (n =? 160))%N.

Fixpoint trimStart (s : string) : string :=
  match s with
  | EmptyString => EmptyString
  | String c s' => if is_space c then trimStart s' else s
  end.

Definition trimEnd (s : string) : string := String.rev (trimStart (String.rev s)).

Definition trim (s : string) : string := trimEnd (trimStart s).

(** [s.split(/\s+/)]: the pieces between maximal runs of white space;
    [cur] is the piece being read, reversed, and [in_ws] tells that the
    previous character was white space. *)
Fixpoint split_go (s : string) (cur : string) (in_ws : bool) : list string :=
  match s with
  | EmptyString => [String.rev cur]
  | String c s' =>
      if is_space c
      then (if in_ws then split_go s' cur true
            else String.rev cur :: split_go s' EmptyString true)
      else split_go s' (String c cur) false
  end.

Definition split_ws (s : string) : list string := split_go s EmptyString false.

(** [.filter(Boolean)] on strings: the non-empty ones. *)
Definition nonempty (s : string) : bool := negb (String.eqb s EmptyString).

(** [s.includes(t)]. *)
Fixpoint includes (s t : string) : bool :=
  String.prefix t s ||
  match s with
  | EmptyString => false
  | String _ s' => includes s' t
  end.

(** Lines 40–42: [q] and [tokens]. *)
Definition query_of (dest : string) : string := trim (toLowerCase dest).

Definition tokens_of (dest : string) : list string :=
  List.filter nonempty (split_ws (query_of dest)).

(** Lines 40–47: the name filter. *)
Definition name_filter (dest : string) (results : list ServiceLot) : list ServiceLot :=
  let q := query_of dest in
  if nonempty q then
    let tokens := List.filter nonempty (split_ws q) in
    List.filter (λ p, let name := toLowerCase (name p) in
                      existsb (λ t, includes name t) tokens) results
  else results.

(** A lot matches when some token occurs in its lower-cased name. *)
Definition occurs_in (t s : string) : Prop :=
  ∃ a b, s = String.append a (String.append t b).

(** The first character exists and is not white space. *)
Definition starts_ink (s : string) : bool :=
  match s with
  | EmptyString => false
  | String c _ => negb (is_space c)
  end.

(** The last character exists and is not white space. *)
Fixpoint ends_ink (s : string) : bool :=
  match s with
  | EmptyString => false
  | String c EmptyString => negb (is_space c)
  | String _ s' => ends_ink s'
  end.

Section Handler.

(** The callback of the radius filter (lines 26–35) computes, on
    doubles, the haversine distance from [parseFloat(lat)],
    [parseFloat(lng)] to the lot and compares it with
    [Number(radius)], 900 when [radius] is absent. Its value is kept
    as a parameter. *)
Variable within_radius : Query → ServiceLot → bool.

(** Lines 22–37. *)
Definition radius_filter (q : Query) (results : list ServiceLot) : list ServiceLot :=
  if truthy (q_lat q) && truthy (q_lng q)
  then List.filter (within_radius q) results
  else results.

(** The handler: the array passed to [res.json]. *)
Definition get_parking (q : Query) : list ServiceLot :=
  let dest := default EmptyString (q_dest q) in
  name_filter dest (radius_filter q data).

End Handler.

(** *** The claim's words: split the query on white space

    A second definition, to compare [split_ws] with. It follows the
    words and not the code: [pieces] are the parts of [s] between its
    maximal runs of white space, in order. *)

(** Every character of [s] satisfies [f]. *)
Fixpoint all_chars (f : ascii → bool) (s : string) : bool :=
  match s with
  | EmptyString => true
  | String c s' => f c && all_chars f s'
  end.

(** [s] begins with a character that satisfies [f]. *)
Definition starts_with (f : ascii → bool) (s : string) : bool :=
  match s with
  | EmptyString => false
  | String c _ => f c
  end.

(** A character that is not white space. *)
Definition is_ink (c : ascii) : bool := negb (is_space c).

(** [s] is a piece without white space, or a piece [w] without white
    space, then a run [sep] of white space that is not empty and that
    [rest] does not continue, then [rest], split in the same way. *)
Inductive spec_split_on_whitespace : string → list string → Prop :=
| spec_split_last w :
    all_chars is_ink w = true → spec_split_on_whitespace w [w]
| spec_split_more s w sep rest pieces :
    s = w +:+ sep +:+ rest →
    all_chars is_ink w = true →
    sep ≠ EmptyString → all_chars is_space sep = true →
    starts_with is_space rest = false →
    spec_split_on_whitespace rest pieces →
    spec_split_on_whitespace s (w :: pieces).

(** The white space [s] begins with. *)
Fixpoint leading_space (s : string) : string :=
  match s with
  | EmptyString => EmptyString
  | String c s' => if is_space c then String c (leading_space s') else EmptyString
  end.

(** [GET /api/v1/parking] without any parameter, as the client's
    initial load requests it. *)
Definition no_parameters : Query :=
  {| q_dest := None; q_lat := None; q_lng := None; q_radius := None |}.

End Server.

(** ** The service: [GET /api/v1/parking/:id] and [GET /api/v1/geo/search] *)

Module ServerRoutes.
Import Server.

(** What a handler sends: [res.json(body)] or
    [res.status(404).json({ error })]. *)
Inductive Response (A : Type) :=
| Ok (body : A)
| NotFound (error : string).
Arguments Ok {A} body.
Arguments NotFound {A} error.

(** [list.find(p => p.id === id)]. *)
Definition find_by_id (i : string) (l : list ServiceLot) : option ServiceLot :=
  List.find (λ p, String.eqb (id p) i) l.

(** Lines 52–64. The array literal of this handler is the one of
    [GET /api/v1/parking], [data]. *)
Definition get_parking_by_id (i : string) : Response ServiceLot :=
  match find_by_id i data with
  | None => NotFound "Not found"
  | Some found => Ok found
  end.

(** An entry of the service's gazetteer. *)
Record ServicePlace := {
  sp_name : string;
  sp_lat : Q;
  sp_lng : Q
}.

Definition places : list ServicePlace :=
  [ {| sp_name := "Flinders Street"; sp_lat := -37.8183; sp_lng := 144.9671 |};
    {| sp_name := "Flinders St Station"; sp_lat := -37.8183; sp_lng := 144.9671 |};
    {| sp_name := "Federation Square"; sp_lat := -37.8179; sp_lng := 144.9691 |};
    {| sp_name := "Melbourne Central"; sp_lat := -37.8107; sp_lng := 144.9626 |};
    {| sp_name := "QV Melbourne"; sp_lat := -37.8103; sp_lng := 144.9643 |};
    {| sp_name := "Southgate"; sp_lat := -37.8203; sp_lng := 144.9657 |};
    {| sp_name := "Collins Street"; sp_lat := -37.8189; sp_lng := 144.9675 |};
    {| sp_name := "Queen Street"; sp_lat := -37.8173; sp_lng := 144.9590 |} ].

(** Lines 66–81: [q] is [(req.query.q || '').toString().toLowerCase().trim()],
    and the response is [{ items }]. *)
Definition geo_search (q : option string) : list ServicePlace :=
  let q := trim (toLowerCase (default EmptyString q)) in
  if nonempty q
  then List.filter (λ p, includes (toLowerCase (sp_name p)) q) places
  else take 5 places.

End ServerRoutes.

(** ** The service: [GET /api/v1/parking] on any request *)

Module ServerRequest.
Import Server.

(** A value of [req.query] as Express's query parser gives it: a string
    for a parameter that occurs once; an array or an object, here by its
    JSON text, for a parameter that is repeated or written with
    brackets. *)
Inductive QValue :=
| QString (s : string)
| QNested (json : string).

Record Request := {
  r_dest : option QValue;
  r_lat : option QValue;
  r_lng : option QValue;
  r_radius : option QValue
}.

(** A parameter in a condition: absent and [''] are false, an array or
    an object is true. *)
Definition truthy_value (o : option QValue) : bool :=
  match o with
  | None => false
  | Some (QString s) => nonempty s
  | Some _ => true
  end.

(** What the client gets back: [res.json(results)], or the status 500
    with which Express answers a handler that throws. *)
Inductive Reply :=
| Json (body : list ServiceLot)
| InternalServerError.

Section Handler.

(** Lines 26–36 on a request whose [lat] and [lng] are truthy: the
    callback of the radius filter, or [None] when [parseFloat(lat)],
    [parseFloat(lng)] or [Number(radius)] throws, as they do for an
    object that cannot be converted to a string. *)
Variable radius_test : Request → option (ServiceLot → bool).

(** Lines 10–49. [dest.toLowerCase()] throws a [TypeError] when [dest]
    is an array or an object, which have no such method. *)
Definition handle (r : Request) : Reply :=
  let filtered :=
    if truthy_value (r_lat r) && truthy_value (r_lng r)
    then (λ f, List.filter f data) <$> radius_test r
    else Some data in
  match filtered with
  | None => InternalServerError
  | Some results =>
      match default (QString EmptyString) (r_dest r) with
      | QString dest => Json (name_filter dest results)
      | _ => InternalServerError
      end
  end.

End Handler.

(** The request whose parameters each occur once or not at all. *)
Definition of_query (q : Query) : Request :=
  {| r_dest := QString <$> q_dest q; r_lat := QString <$> q_lat q;
     r_lng := QString <$> q_lng q; r_radius := QString <$> q_radius q |}.

(** [dest] is absent or a string. *)
Definition dest_is_text (r : Request) : bool :=
  match r_dest r with
  | None | Some (QString _) => true
  | Some _ => false
  end.

(** The radius filter is skipped, or its test does not throw. *)
Definition radius_test_returns (radius_test : Request → option (ServiceLot → bool))
    (r : Request) : bool :=
  negb (truthy_value (r_lat r) && truthy_value (r_lng r)) ||
  bool_decide (is_Some (radius_test r)).

End ServerRequest.

(** ** The gazetteer of the in-memory data source ([mock.geoSearch]) *)

Module Gazetteer.

Record MockPlace := {
  place_id : string;
  name : string;
  lat : Q;
  lng : Q
}.

(** [mock]'s [places]. *)
Definition places : list MockPlace :=
  [ {| place_id := "g-fedsq"; name := "Federation Square";
       lat := -37.817979; lng := 144.969093 |};
    {| place_id := "g-caulfield"; name := "Monash Caulfield Campus";
       lat := -37.8770; lng := 145.0443 |};
    {| place_id := "g-swanston"; name := "Swanston St & Bourke St";
       lat := -37.8134; lng := 144.9635 |} ].

(** [geoSearch(q)] on a gazetteer [places]: the query is lower-cased but
    not trimmed, and at most eight matches are kept. *)
Definition geoSearch (places : list MockPlace) (q : string) : list MockPlace :=
  let qn := Server.toLowerCase q in
  take 8 (List.filter (λ p, Server.includes (Server.toLowerCase (name p)) qn) places).

End Gazetteer.

(** ** From the service to the client ([api.parkingByDest]) *)

Module Wire.
Import JSNum Client.

(** A decimal literal of the service, as the client reads it back from
    the JSON text: the nearest double. The quotient of two integers that
    are doubles is rounded once, to the nearest double. *)
Definition Q2F (q : Q) : float := (Z2F (Qnum q) / Z2F (Z.pos (Qden q)))%float.

(** The object [r.json()] gives for a record sent with [res.json]. *)
Definition to_wire (p : Server.ServiceLot) : gmap string JSValue :=
  list_to_map
    [ ("id", JString (Server.id p)); ("name", JString (Server.name p));
      ("lat", JNumber (Q2F (Server.lat p))); ("lng", JNumber (Q2F (Server.lng p)));
      ("capacity", JNumber (Z2F (Server.capacity p)));
      ("available", JNumber (Z2F (Server.available p))) ].

(** [api.parkingByDest(dest)]: the request carries [dest] only, and the
    array of the response is mapped with [mapBackendParking]. [now] is
    what [new Date().toISOString()] returns. *)
Definition parkingByDest (wr : Server.Query → Server.ServiceLot → bool)
    (now : string) (dest : string) : list FrontLot :=
  let arr := to_wire <$>
    Server.get_parking wr
      {| Server.q_dest := Some dest; Server.q_lat := None;
         Server.q_lng := None; Server.q_radius := None |} in
  mapBackendParking now <$> arr.

(** The client-side lot of a record [p] of the service. *)
Definition normal_form (now : string) (p : Server.ServiceLot) : FrontLot :=
  {| id := JString (Server.id p); name := JString (Server.name p);
     lat := JNumber (Q2F (Server.lat p)); lng := JNumber (Q2F (Server.lng p));
     capacity := JNumber (Z2F (Server.capacity p));
     available_spots := JNumber (Z2F (Server.available p));
     price := JUndefined; updated_at := JString now |}.

End Wire.

(** ** A resolve against the in-memory data source *)

Module MockResolve.
Import Mock Resolve.

(** [api.parkingNear(place.lat, place.lng, 900)] with [USE_MOCK]. *)
Definition fetch_mock (store : list Lot) (place : Place) : list Lot :=
  parkingNear store (Q2R (place_lat place)) (Q2R (place_lng place)) (Some 900%R).

(** [chooseDestination(place)] and the completion of its fetch, which no
    other event can precede when the data source is [mock]. *)
Definition resolve_mock (store : list Lot) (pg : Page) (place : Place) : Page :=
  run pg [Choose place; Arrive (calls pg) (fetch_mock store place)].

End MockResolve.

(** ** Clicking the map: the nearest of the cached lots
    ([enableNearestOnMapClick]) *)

Module MapClick.
Import Mock.

(** The callback of [list.reduce(..., null)]: [best] is [null] or
    [{ node, dist }]. *)
Definition closer (target : Geo.LatLng) (best : option (Lot * R)) (cur : Lot)
    : option (Lot * R) :=
  let d := Geo.distanceMeters target (pos cur) in
  match best with
  | None => Some (cur, d)
  | Some b => if decide (d < b.2)%R then Some (cur, d) else best
  end.

(** The lot whose popup a click at [target] opens; [None] when the cached
    list is empty and the handler returns at once. *)
Definition nearest_on_click (target : Geo.LatLng) (list : list Lot) : option (Lot * R) :=
  match list with
  | [] => None
  | _ => foldl (closer target) None list
  end.

End MapClick.

(** ** Greener alternatives ([renderEnvSuggestions]) *)

Module EnvSuggestions.
Import Mock Resolve.

(** [envCard(title, text, impact)]. *)
Record EnvCard := { title : string; text : string; impact : string }.

Definition card_no_lots : EnvCard :=
  {| title := "Public transport";
     text := "Use tram/train/bus to avoid parking and reduce congestion.";
     impact := "High" |}.

Definition cards_short : list EnvCard :=
  [ {| title := "Walk";
       text := "Distance is short. Walking avoids emissions and parking fees.";
       impact := "≈100% CO₂ saved" |};
    {| title := "Cycle"; text := "Fast and zero-emission for short trips.";
       impact := "≈100% CO₂ saved" |};
    {| title := "Public transport";
       text := "If a direct service exists, it’s cheaper than parking.";
       impact := "High" |} ].

Definition cards_medium : list EnvCard :=
  [ {| title := "Cycle"; text := "5 km is comfortable bike range for many riders.";
       impact := "≈100% CO₂ saved" |};
    {| title := "Public transport";
       text := "Likely options available depending on route."; impact := "High" |};
    {| title := "Park & Walk";
       text := "Park slightly further away and walk the last 500–800 m.";
       impact := "Some savings" |} ].

Definition cards_long : list EnvCard :=
  [ {| title := "Public transport"; text := "Avoid city traffic and parking costs.";
       impact := "High" |};
    {| title := "Park & Ride";
       text := "Drive to a suburban station, then train/tram to destination.";
       impact := "Moderate savings" |};
    {| title := "Car share"; text := "Use shared vehicles to reduce total cars parked.";
       impact := "Varies" |} ].

(** [lots.slice().sort((a,b) => a.distance_m - b.distance_m)[0]]. *)
Definition nearest (lots : list View) : option View :=
  head (Array_sort (λ a b, (distance_m a - distance_m b)%R) lots).

(** The cards appended to [#envSuggestions]. [None] stands for the
    [TypeError] of reading [nearest.distance_m] when [nearest] is
    [undefined]. *)
Definition renderEnvSuggestions (lots : list View) : option (list EnvCard) :=
  match lots with
  | [] => Some [card_no_lots]
  | _ =>
      n ← nearest lots;
      let km := (distance_m n / 1000)%R in
      if decide (km <= 1.2)%R then Some cards_short
      else if decide (km <= 5)%R then Some cards_medium
      else Some cards_long
  end.

End EnvSuggestions.

(** ** Configuration ([loadConfig]) *)

Module Config.
Import JSNum Client.

(** [config_json] is the object read from [config.json], or [None] when
    the fetch fails, the status is not OK or the body is not JSON;
    [qs_mock] and [qs_api] are the [mock] and [api] parameters of the
    page's query string. The result is the [defaults] object. *)
Definition loadConfig (config_json : option (gmap string JSValue))
    (qs_mock qs_api : option string) : gmap string JSValue :=
  let defaults : gmap string JSValue :=
    <["useMock" := JBoolean true]>
      (<["apiBase" := JString "http://localhost:4000/api/v1"]> ∅) in
  let defaults :=
    match config_json with
    | Some o => o ∪ defaults
    | None => defaults
    end in
  let defaults :=
    match qs_mock with
    | Some v => <["useMock" := JBoolean (negb (String.eqb v "0"))]> defaults
    | None => defaults
    end in
  match qs_api with
  | Some v => <["apiBase" := JString v]> defaults
  | None => defaults
  end.

(** [USE_MOCK], as a condition reads it. *)
Definition USE_MOCK (config : gmap string JSValue) : bool :=
  truthy (get config "useMock").

End Config.

(** ** The debounced search box (the [input] listener) *)

Module Debounce.

(** The timers set with [setTimeout] that have not fired, each with the
    query its callback will search for; the variable [debounceTimer];
    the id the next timer gets; and the calls of [api.geoSearch] made so
    far. *)
Record Box := {
  timers : gmap nat string;
  debounceTimer : option nat;
  next_timer : nat;
  searches : list string
}.

Definition initial : Box :=
  {| timers := ∅; debounceTimer := None; next_timer := 1; searches := [] |}.

Inductive Event :=
| Input (value : string)
| Fire (timer : nat).

(** [clearTimeout(debounceTimer)]. *)
Definition clearTimeout (t : option nat) (ts : gmap nat string) : gmap nat string :=
  match t with
  | Some i => delete i ts
  | None => ts
  end.

(** The listener, lines 109–117. *)
Definition input (value : string) (b : Box) : Box :=
  let q := Server.trim value in
  let ts := clearTimeout (debounceTimer b) (timers b) in
  if Server.nonempty q
  then {| timers := <[next_timer b := q]> ts;
          debounceTimer := Some (next_timer b);
          next_timer := S (next_timer b);
          searches := searches b |}
  else {| timers := ts;
          debounceTimer := debounceTimer b;
          next_timer := next_timer b;
          searches := searches b |}.

(** A timer fires: its callback calls [api.geoSearch(q)]. *)
Definition fire (i : nat) (b : Box) : Box :=
  match timers b !! i with
  | Some q => {| timers := delete i (timers b);
                 debounceTimer := debounceTimer b;
                 next_timer := next_timer b;
                 searches := searches b ++ [q] |}
  | None => b
  end.

Definition step (b : Box) (e : Event) : Box :=
  match e with
  | Input v => input v b
  | Fire i => fire i b
  end.

Definition run (b : Box) (trace : list Event) : Box := foldl step b trace.

(** The value of the last [Input] of a trace. *)
Fixpoint last_input (trace : list Event) : option string :=
  match trace with
  | [] => None
  | Input v :: rest => match last_input rest with Some w => Some w | None => Some v end
  | Fire _ :: rest => last_input rest
  end.

(** An input that schedules a search. *)
Definition nonblank (e : Event) : bool :=
  match e with
  | Input v => Server.nonempty (Server.trim v)
  | Fire _ => false
  end.

(** What holds of the box after the events of [trace]: at most one timer
    is pending, and it is the one of the last input; every search made
    is the trimmed, non-blank value of some input; and searches made
    and pending are no more than the inputs that scheduled one. *)
Definition settled (trace : list Event) (b : Box) : Prop :=
  (timers b = ∅ ∨
   ∃ i v, timers b = {[ i := Server.trim v ]} ∧ debounceTimer b = Some i ∧
          last_input trace = Some v ∧ Server.nonempty (Server.trim v) = true) ∧
  (∀ q, q ∈ searches b →
        Server.nonempty q = true ∧ ∃ v, Input v ∈ trace ∧ q = Server.trim v) ∧
  length (searches b) + size (timers b) ≤ length (List.filter nonblank trace).

End Debounce.

(** ** The update feed ([subscribeRealtime]) and what it redraws *)

Module Feed.
Import Mock Resolve.

(** A lot card: the heading, the first badge ([available/capacity spots],
    red when no spot is free), the distance and the price. *)
Record Card := {
  card_name : string;
  card_available : Z;
  card_capacity : Z;
  card_red : bool;
  card_distance : R;
  card_price : option string
}.

(** [lotCard(p)]. *)
Definition lotCard (p : View) : Card :=
  {| card_name := name (lot p);
     card_available := available_spots (lot p);
     card_capacity := capacity (lot p);
     card_red := (available_spots (lot p) =? 0)%Z;
     card_distance := distance_m p;
     card_price := price (lot p) |}.

(** What [popupHtml(p)] shows. *)
Record Popup := {
  pop_name : string;
  pop_available : Z;
  pop_capacity : Z;
  pop_updated_at : string
}.

Definition popupHtml (p : Lot) : Popup :=
  {| pop_name := name p; pop_available := available_spots p;
     pop_capacity := capacity p; pop_updated_at := updated_at p |}.

(** [markers]: a [Map] from ids to markers, in insertion order. *)
Definition Markers := list (string * Popup).

(** [upsertMarker(p)]. *)
Fixpoint upsertMarker (p : Lot) (ms : Markers) : Markers :=
  match ms with
  | [] => [(id p, popupHtml p)]
  | (k, m) :: ms' =>
      if decide (k = id p) then (k, popupHtml p) :: ms'
      else (k, m) :: upsertMarker p ms'
  end.

(** The drawing of [chooseDestination]: [markers.clear()], then a marker
    and a card for each item. *)
Definition draw (items : list View) : Markers * list Card :=
  (foldl (λ ms p, upsertMarker (lot p) ms) [] items, lotCard <$> items).

(** The feed's redraw for one update [u]: the popup of the marker with
    [u]'s id, and the badge of every card whose heading is [u]'s name. *)
Fixpoint redraw_marker (u : Lot) (ms : Markers) : Markers :=
  match ms with
  | [] => []
  | (k, m) :: ms' =>
      if decide (k = id u) then (k, popupHtml u) :: ms'
      else (k, m) :: redraw_marker u ms'
  end.

Definition redraw_card (u : Lot) (c : Card) : Card :=
  if decide (card_name c = name u)
  then {| card_name := card_name c;
          card_available := available_spots u;
          card_capacity := capacity u;
          card_red := (available_spots u =? 0)%Z;
          card_distance := card_distance c;
          card_price := card_price c |}
  else c.

Definition redraw (updates : list Lot) (ms : Markers) (cards : list Card)
    : Markers * list Card :=
  foldl (λ st u, (redraw_marker u st.1, redraw_card u <$> st.2)) (ms, cards) updates.

(** One firing of the interval: [pushUpdates] for the ids of the
    markers, then the redraw. The result is the store, the markers and
    the cards afterwards. *)
Definition tick (E : Env) (store : list Lot) (ms : Markers) (cards : list Card)
    : option (list Lot * Markers * list Card) :=
  r ← pushUpdates E (fst <$> ms) store;
  let drawn := redraw r.1 ms cards in
  Some (r.2, drawn.1, drawn.2).

(** The card [c] shows the name and the counts of the lot [l]. *)
Definition card_shows (l : Lot) (c : Card) : Prop :=
  name l = card_name c ∧ available_spots l = card_available c ∧
  capacity l = card_capacity c ∧ card_red c = (available_spots l =? 0)%Z.

(** What a redraw for [updates] may do to a card [c]. *)
Definition card_kept (updates : list Lot) (c c' : Card) : Prop :=
  card_name c' = card_name c ∧ card_distance c' = card_distance c ∧
  card_price c' = card_price c ∧ (card_name c ∉ name <$> updates → c' = c).

(** What [redraw_marker] does to one entry of [markers]. *)
Definition redraw_entry (u : Lot) (e : string * Popup) : string * Popup :=
  if decide (e.1 = id u) then (e.1, popupHtml u) else e.

End Feed.

(** ** Theorems *)

Module ChartsFacts.
Import JSNum Charts.

(** Ties go up, and a small negative value rounds to [-0]. *)
Example Math_round_half_up :
  Math_round 2.5 = 3%float ∧ Math_round (-2.5) = (-2)%float ∧
  Math_round 74.5 = 75%float ∧ Math_round 0.25 = 0%float ∧
  Math_round (-0.25) = (-0)%float ∧ Math_round (0 / 0) = nan.
Proof. repeat split; vm_compute; reflexivity. Qed.

(** [Math.max(1, c)] is at least 1 unless [c] is NaN: the later revision
    never divides by zero. *)
Lemma Math_max_one_le (c : float) :
  is_nan c = false → (1 <=? Math_max 1 c)%float = true.
Proof.
  intros Hc. unfold Math_max.
  replace (is_nan 1) with false by (vm_compute; reflexivity).
  rewrite Hc. simpl.
  destruct (1 <? c)%float eqn:Hlt.
  - rewrite FloatAxioms.ltb_spec in Hlt. rewrite FloatAxioms.leb_spec.
    unfold SFltb in Hlt. unfold SFleb.
    destruct (SFcompare (Prim2SF 1) (Prim2SF c)) as [[| |]|]; done.
  - replace (is_zero 1) with false by (vm_compute; reflexivity).
    simpl. destruct (c <? 1)%float; vm_compute; reflexivity.
Qed.

(** On the fixture both revisions draw the same bars. *)
Example occ_fixture :
  occ (Mock.fixture "t0") = [60; 71; 90; 66; 94]%float ∧
  occ_app_js (Mock.fixture "t0") = occ (Mock.fixture "t0").
Proof. split; vm_compute; reflexivity. Qed.

(** In the later revision the guarded divisor gives the two values the
    specification lists. *)
Lemma occupancy_pct_examples :
  occupancy_pct 0 0 = 0%float ∧ occupancy_pct 100 25 = 75%float.
Proof. split; vm_compute; reflexivity. Qed.

(** C1, evaluated on [src/app.js]: the earlier revision divides by
    [l.capacity] itself. For a lot with capacity 0 and 0 available spots
    the quotient is [0/0], so the chart value is NaN and not 0; for
    capacity 100 and 25 available spots it is 75. The later revision
    returns 0 and 75 on the same two lots. *)
Theorem occupancy_pct_app_js_zero_capacity :
  is_nan (occupancy_pct_app_js 0 0) = true ∧
  occupancy_pct_app_js 0 0 ≠ 0%float ∧
  occupancy_pct_app_js 100 25 = 75%float ∧
  occupancy_pct 0 0 = 0%float ∧
  occupancy_pct 100 25 = 75%float.
Proof.
  split; [vm_compute; reflexivity|].
  split.
  - intros H. apply (f_equal is_nan) in H. vm_compute in H. discriminate.
  - repeat split; vm_compute; reflexivity.
Qed.

End ChartsFacts.

Module GeoFacts.
Import Geo.
Local Open Scope R_scope.

Lemma toRad_sub x y : toRad (x - y) = toRad x - toRad y.
Proof. unfold toRad. lra. Qed.

Lemma toRad_opp x : toRad (- x) = - toRad x.
Proof. unfold toRad. lra. Qed.

Lemma sin_half_sq_swap x y : sin (toRad (x - y) / 2) ^ 2 = sin (toRad (y - x) / 2) ^ 2.
Proof.
  replace (toRad (x - y) / 2) with (- (toRad (y - x) / 2)) by (unfold toRad; lra).
  rewrite sin_neg. ring.
Qed.

Lemma hav_sym a b : hav a b = hav b a.
Proof.
  unfold hav. cbv zeta.
  rewrite (sin_half_sq_swap (lat b)), (sin_half_sq_swap (lng b)). ring.
Qed.

Lemma hav_diag a : hav a a = 0.
Proof.
  unfold hav. cbv zeta.
  replace (toRad (lat a - lat a) / 2) with 0 by (unfold toRad; lra).
  replace (toRad (lng a - lng a) / 2) with 0 by (unfold toRad; lra).
  rewrite sin_0. ring.
Qed.

Lemma toRad_valid_lat p : valid p → - (PI / 2) <= toRad (lat p) <= PI / 2.
Proof.
  intros [[Hlo Hhi] _]. unfold toRad. pose proof PI_RGT_0 as Hpi.
  split; nra.
Qed.

Lemma sin_half_sq x : sin (x / 2) ^ 2 = (1 - cos x) / 2.
Proof.
  replace (cos x) with (cos (2 * (x / 2))) by (f_equal; lra).
  rewrite cos_2a_sin. lra.
Qed.

Lemma hav_bounds a b : valid a → valid b → 0 <= hav a b <= 1.
Proof.
  intros Ha Hb.
  pose proof (toRad_valid_lat a Ha) as [Ha1 Ha2].
  pose proof (toRad_valid_lat b Hb) as [Hb1 Hb2].
  pose proof (cos_ge_0 _ Ha1 Ha2) as Hca.
  pose proof (cos_ge_0 _ Hb1 Hb2) as Hcb.
  unfold hav. cbv zeta.
  rewrite !sin_half_sq, toRad_sub.
  rewrite cos_minus.
  pose proof (COS_bound (toRad (lng b - lng a))) as [Hl1 Hl2].
  pose proof (COS_bound (toRad (lat b) + toRad (lat a))) as [Hs1 Hs2].
  rewrite cos_plus in Hs1, Hs2.
  set (ca := cos (toRad (lat a))) in *. set (cb := cos (toRad (lat b))) in *.
  set (sa := sin (toRad (lat a))) in *. set (sb := sin (toRad (lat b))) in *.
  set (cl := cos (toRad (lng b - lng a))) in *.
  pose proof (COS_bound (toRad (lat b) - toRad (lat a))) as [Hd1 Hd2].
  rewrite cos_minus in Hd1, Hd2. fold ca cb sa sb in Hd1, Hd2.
  split; nra.
Qed.

Lemma asin_nonneg x : 0 <= x → 0 <= asin x.
Proof.
  intros Hx. pose proof PI_RGT_0 as Hpi. unfold asin.
  destruct (Rle_dec x (-1)); [lra|].
  destruct (Rle_dec 1 x); [lra|].
  rewrite <- atan_0.
  assert (0 <= x / sqrt (1 - x²)) as [Hlt | <-].
  { apply Rmult_le_pos; [done|]. apply Rlt_le, Rinv_0_lt_compat, sqrt_lt_R0.
    unfold Rsqr. nra. }
  - apply Rlt_le, atan_increasing, Hlt.
  - apply Rle_refl.
Qed.

Lemma distanceMeters_nonneg a b : 0 <= distanceMeters a b.
Proof.
  unfold distanceMeters, R_earth.
  pose proof (asin_nonneg _ (sqrt_pos (hav a b))). nra.
Qed.

Lemma distanceMeters_diag a : distanceMeters a a = 0.
Proof. unfold distanceMeters. rewrite hav_diag, sqrt_0, asin_0. ring. Qed.

Lemma distanceMeters_sym a b : distanceMeters a b = distanceMeters b a.
Proof. unfold distanceMeters. by rewrite hav_sym. Qed.

(** C5: for valid points [a] and [b], the haversine term stays in
    [[0, 1]], so that the square root and the arcsine are taken inside
    their domains and no NaN arises; the distance is computed as
    [2 * 6371000 * asin (sqrt h)], it is non-negative, zero from a point
    to itself, and symmetric. Numbers are exact reals here: the rounding
    of doubles is left out. *)
Theorem distanceMeters_properties a b :
  valid a → valid b →
  0 <= hav a b <= 1 ∧
  distanceMeters a b = 2 * 6371000 * asin (sqrt (hav a b)) ∧
  0 <= distanceMeters a b ∧
  distanceMeters a a = 0 ∧
  distanceMeters a b = distanceMeters b a.
Proof.
  intros Ha Hb. split; [by apply hav_bounds|].
  split; [reflexivity|].
  split; [apply distanceMeters_nonneg|].
  split; [apply distanceMeters_diag|apply distanceMeters_sym].
Qed.

(** Federation Square and the default map centre. *)
Lemma distanceMeters_properties_witness :
  let a := {| lat := -37.817979; lng := 144.969093 |} in
  let b := {| lat := -37.8136; lng := 144.9631 |} in
  valid a ∧ valid b ∧ 0 <= distanceMeters a b ∧ distanceMeters a b = distanceMeters b a.
Proof.
  intros a b.
  assert (valid a) as Ha by (unfold valid, a; simpl; lra).
  assert (valid b) as Hb by (unfold valid, b; simpl; lra).
  destruct (distanceMeters_properties a b Ha Hb) as (_ & _ & H0 & _ & Hs).
  exact (conj Ha (conj Hb (conj H0 Hs))).
Defined.

End GeoFacts.

Module MockFacts.
Import Mock.

(** *** [Array.prototype.sort] with a comparator [(a, b) => key(a) - key(b)] *)

Section Sort.
Context {A : Type} (key : A → R).

Lemma insert_by_perm x l : insert_by (by_key key) x l ≡ₚ x :: l.
Proof.
  induction l as [|y l IH]; simpl; [done|].
  destruct (decide _); [|done]. rewrite IH. apply Permutation_swap.
Qed.

Lemma Array_sort_perm l : Array_sort (by_key key) l ≡ₚ l.
Proof.
  induction l as [|x l IH]; simpl; [done|].
  unfold Array_sort in *. simpl. by rewrite insert_by_perm, IH.
Qed.

Lemma insert_by_sorted x l :
  StronglySorted (le_key key) l → StronglySorted (le_key key) (insert_by (by_key key) x l).
Proof.
  induction 1 as [|y l Hs IH Hy]; simpl.
  { repeat constructor. }
  destruct (decide (0 < by_key key x y)%R) as [Hlt|Hge].
  - constructor; [done|].
    rewrite insert_by_perm. constructor; [|done].
    unfold le_key, by_key in *. lra.
  - constructor; [by constructor|].
    assert (le_key key x y) as Hxy by (unfold le_key, by_key in *; lra).
    constructor; [done|].
    eapply Forall_impl; [done|]. unfold le_key in *. intros z ?. simpl in *. lra.
Qed.

Lemma Array_sort_sorted l : StronglySorted (le_key key) (Array_sort (by_key key) l).
Proof.
  induction l as [|x l IH]; [constructor|].
  unfold Array_sort in *. simpl. by apply insert_by_sorted.
Qed.

Lemma sorted_take_drop n l x y :
  StronglySorted (le_key key) l → x ∈ take n l → y ∈ drop n l → le_key key x y.
Proof.
  intros Hs. revert n. induction Hs as [|z l Hs IH Hz]; intros n Hx Hy.
  { rewrite take_nil in Hx. by apply elem_of_nil in Hx. }
  destruct n as [|n]; simpl in *.
  { by apply elem_of_nil in Hx. }
  apply elem_of_cons in Hx as [->|Hx].
  - rewrite Forall_forall in Hz. apply Hz. by eapply subseteq_drop.
  - by eapply IH.
Qed.
End Sort.

(** *** [parkingNear] *)

Lemma haversine_is_distanceMeters a b : haversine a b = Geo.distanceMeters a b.
Proof. reflexivity. Qed.

Lemma parkingNear_empty lots lat lng radius :
  let c := {| Geo.lat := lat; Geo.lng := lng |} in
  filter (λ p, (haversine c (pos p) <= default 900%R radius)%R) lots = [] →
  parkingNear lots lat lng radius =
  fst <$> take 3 (Array_sort (λ a b, (a.2 - b.2)%R) (decorate c lots)).
Proof. intros c Hnil. unfold parkingNear. fold c. by rewrite Hnil. Qed.

Lemma parkingNear_nonempty lots lat lng radius :
  let c := {| Geo.lat := lat; Geo.lng := lng |} in
  let items := filter (λ p, (haversine c (pos p) <= default 900%R radius)%R) lots in
  items ≠ [] → parkingNear lots lat lng radius = items.
Proof.
  intros c items Hne. unfold parkingNear. fold c. fold items.
  by destruct items.
Qed.

Lemma fst_decorate c lots : fst <$> decorate c lots = lots.
Proof.
  unfold decorate. rewrite <- list_fmap_compose. simpl.
  induction lots; simpl; f_equal; done.
Qed.

Lemma nearest_three c lots :
  let res := fst <$> take 3 (Array_sort (λ a b, (a.2 - b.2)%R) (decorate c lots)) in
  length res = min 3 (length lots) ∧ nearest_of c lots res.
Proof.
  set (sorted := Array_sort _ _). simpl.
  assert (sorted ≡ₚ decorate c lots) as Hp by apply (Array_sort_perm snd).
  assert (StronglySorted (λ a b, (a.2 <= b.2)%R) sorted) as Hs
    by apply (Array_sort_sorted snd).
  split.
  - rewrite length_fmap, length_take, Hp. unfold decorate. by rewrite length_fmap.
  - exists (fst <$> drop 3 sorted). split.
    + rewrite <- fmap_app, take_drop, Hp. by rewrite fst_decorate.
    + intros x y (px & -> & Hx)%list_elem_of_fmap (py & -> & Hy)%list_elem_of_fmap.
      assert (∀ q, q ∈ sorted → q.2 = haversine c (pos q.1)) as Hkey.
      { intros q Hq. rewrite Hp in Hq. unfold decorate in Hq.
        apply list_elem_of_fmap in Hq as (p & -> & _). done. }
      rewrite <- (Hkey px), <- (Hkey py).
      * by apply (sorted_take_drop snd 3 sorted).
      * by eapply subseteq_drop.
      * by eapply subseteq_take.
Qed.

(** *** [pushUpdates] *)

Lemma findIndex_Some i lots n :
  findIndex i lots = Some n → ∃ l, lots !! n = Some l ∧ id l = i.
Proof.
  unfold findIndex. destruct (list_find _ lots) as [[m l]|] eqn:Hf; [|done].
  intros [= <-]. apply list_find_Some in Hf as (Hl & Hid & _). eauto.
Qed.

Lemma findIndex_None i lots : findIndex i lots = None ↔ i ∉ id <$> lots.
Proof.
  unfold findIndex. destruct (list_find _ lots) as [[m l]|] eqn:Hf; simpl.
  - split; [done|]. intros Hni. apply list_find_Some in Hf as (Hl & Hid & _).
    exfalso. apply Hni. apply list_elem_of_fmap. exists l. split; [done|].
    by eapply list_elem_of_lookup_2.
  - split; [|done]. intros _. apply list_find_None in Hf.
    intros (l & -> & Hl)%list_elem_of_fmap.
    rewrite Forall_forall in Hf. by apply (Hf l).
Qed.

Lemma loop_cons_found E i ids lots k changes n l :
  findIndex i lots = Some n → lots !! n = Some l →
  pushUpdates_loop E (i :: ids) lots k changes =
  pushUpdates_loop E ids (<[n := updated E k l]> lots) (S k) (changes ++ [updated E k l]).
Proof. intros Hf Hl. simpl. rewrite Hf. simpl. rewrite Hl. reflexivity. Qed.

Lemma loop_cons_missing E i ids lots k changes :
  findIndex i lots = None →
  pushUpdates_loop E (i :: ids) lots k changes = pushUpdates_loop E ids lots k changes.
Proof. intros Hf. simpl. by rewrite Hf. Qed.

Lemma updated_in_range E k l : (0 ≤ capacity l)%Z → in_range (updated E k l).
Proof. unfold in_range, updated. simpl. lia. Qed.

Lemma updated_same_static E k l : same_static l (updated E k l).
Proof. by repeat split. Qed.

Lemma ids_insert_updated E k (n : nat) l (lots : list Lot) :
  lots !! n = Some l → id <$> <[n := updated E k l]> lots = id <$> lots.
Proof.
  intros Hl. rewrite list_fmap_insert. simpl. apply list_insert_id.
  by rewrite list_lookup_fmap, Hl.
Qed.

(** The loop never fails and its result can be described step by step. *)
Lemma loop_total E ids : ∀ lots k changes,
  ∃ changes' lots' k',
    pushUpdates_loop E ids lots k changes = Some (changes', lots', k').
Proof.
  induction ids as [|i ids IH]; intros lots k changes; [by eauto|].
  destruct (findIndex i lots) as [n|] eqn:Hf.
  - destruct (findIndex_Some _ _ _ Hf) as (l & Hl & _).
    rewrite (loop_cons_found _ _ _ _ _ _ _ _ Hf Hl). apply IH.
  - rewrite (loop_cons_missing _ _ _ _ _ _ Hf). apply IH.
Qed.

Lemma loop_in_range E ids : ∀ lots k changes changes' lots' k',
  pushUpdates_loop E ids lots k changes = Some (changes', lots', k') →
  Forall in_range lots → Forall in_range changes →
  Forall in_range lots' ∧ Forall in_range changes'.
Proof.
  induction ids as [|i ids IH]; intros lots k changes changes' lots' k' Hrun Hl Hc.
  { by simplify_eq/=. }
  destruct (findIndex i lots) as [n|] eqn:Hf.
  - destruct (findIndex_Some _ _ _ Hf) as (l & Hn & _).
    rewrite (loop_cons_found _ _ _ _ _ _ _ _ Hf Hn) in Hrun.
    assert (in_range (updated E k l)) as Hu.
    { apply updated_in_range. rewrite Forall_lookup in Hl.
      specialize (Hl _ _ Hn). unfold in_range in Hl. lia. }
    eapply IH; [done| |].
    + by apply Forall_insert.
    + apply Forall_app. split; [done|]. by apply Forall_singleton.
  - rewrite (loop_cons_missing _ _ _ _ _ _ Hf) in Hrun. by eapply IH.
Qed.

Lemma loop_ids E ids : ∀ lots k changes changes' lots' k',
  pushUpdates_loop E ids lots k changes = Some (changes', lots', k') →
  id <$> lots' = id <$> lots ∧
  id <$> changes' = (id <$> changes) ++ filter (λ i, i ∈ id <$> lots) ids.
Proof.
  induction ids as [|i ids IH]; intros lots k changes changes' lots' k' Hrun.
  { simplify_eq/=. by rewrite app_nil_r. }
  destruct (findIndex i lots) as [n|] eqn:Hf.
  - destruct (findIndex_Some _ _ _ Hf) as (l & Hn & Hid).
    rewrite (loop_cons_found _ _ _ _ _ _ _ _ Hf Hn) in Hrun.
    apply IH in Hrun as [Hs Hc].
    rewrite (ids_insert_updated _ _ _ _ _ Hn) in Hs, Hc.
    split; [done|]. rewrite Hc, fmap_app. simpl. rewrite <- app_assoc. simpl.
    rewrite filter_cons_True; [by rewrite Hid|].
    apply list_elem_of_fmap. exists l. split; [done|].
    by eapply list_elem_of_lookup_2.
  - rewrite (loop_cons_missing _ _ _ _ _ _ Hf) in Hrun.
    apply IH in Hrun as [Hs Hc]. split; [done|].
    rewrite filter_cons_False; [done|]. by apply findIndex_None.
Qed.

Lemma framed_refl ids l : framed ids l l.
Proof. by repeat split. Qed.

Lemma loop_framed E ids : ∀ lots k changes changes' lots' k',
  pushUpdates_loop E ids lots k changes = Some (changes', lots', k') →
  Forall2 (framed ids) lots lots'.
Proof.
  induction ids as [|i ids IH]; intros lots k changes changes' lots' k' Hrun.
  { simplify_eq/=. apply Forall2_same_length_lookup_2; [done|].
    intros j x y ? ?. simplify_eq. apply framed_refl. }
  destruct (findIndex i lots) as [n|] eqn:Hf.
  - destruct (findIndex_Some _ _ _ Hf) as (l & Hn & Hid).
    rewrite (loop_cons_found _ _ _ _ _ _ _ _ Hf Hn) in Hrun.
    apply IH in Hrun.
    apply Forall2_same_length_lookup_2.
    { apply Forall2_length in Hrun. by rewrite length_insert in Hrun. }
    intros j x y Hx Hy.
    destruct (decide (j = n)) as [->|Hne].
    + assert (x = l) as -> by congruence.
      assert (<[n:=updated E k l]> lots !! n = Some (updated E k l)) as Hu.
      { apply list_lookup_insert_eq. by eapply lookup_lt_Some. }
      destruct (Forall2_lookup_lr _ _ _ _ _ _ Hrun Hu Hy) as [(Hi & Hnm & Hla & Hlo & Hca & Hpr) _].
      split.
      * repeat split; simpl in *; congruence.
      * intros Hni. exfalso. apply Hni. rewrite Hid. left.
    + assert (<[n:=updated E k l]> lots !! j = Some x) as Hu.
      { by rewrite list_lookup_insert_ne. }
      destruct (Forall2_lookup_lr _ _ _ _ _ _ Hrun Hu Hy) as [Hst Heq].
      split; [done|]. intros Hni. apply Heq. intros Hin. apply Hni. by right.
  - rewrite (loop_cons_missing _ _ _ _ _ _ Hf) in Hrun.
    apply IH in Hrun. eapply Forall2_impl; [done|].
    intros x y [Hst Heq]. split; [done|].
    intros Hni. apply Heq. intros Hin. apply Hni. by right.
Qed.

Lemma haversine_nonneg a b : (0 <= haversine a b)%R.
Proof. rewrite haversine_is_distanceMeters. apply GeoFacts.distanceMeters_nonneg. Qed.

Lemma haversine_diag a : haversine a a = 0%R.
Proof. rewrite haversine_is_distanceMeters. apply GeoFacts.distanceMeters_diag. Qed.

Lemma within_negative_radius c r (lots : list Lot) :
  (r < 0)%R → filter (λ p, (haversine c (pos p) <= r)%R) lots = [].
Proof.
  intros Hr. induction lots as [|p lots IH]; [done|].
  rewrite filter_cons_False; [done|].
  pose proof (haversine_nonneg c (pos p)). lra.
Qed.

(** C2: when the store is not empty and no lot is within the radius,
    [parkingNear] returns [min 3 (length lots)] lots, and they are
    nearest to the centre; when the store is empty or some lot is within
    the radius it returns exactly the lots within the radius; on a store
    that is not empty the result is never empty. *)
Theorem parkingNear_fallback_policy (lots : list Lot) (lat lng : R) (radius : option R) :
  let c := {| Geo.lat := lat; Geo.lng := lng |} in
  let within := filter (λ p, (haversine c (pos p) <= default 900%R radius)%R) lots in
  let res := parkingNear lots lat lng radius in
  (lots ≠ [] → within = [] →
     length res = min 3 (length lots) ∧ nearest_of c lots res) ∧
  (lots = [] ∨ within ≠ [] → res = within) ∧
  (lots ≠ [] → res ≠ []).
Proof.
  intros c within res.
  assert (within = [] → length res = min 3 (length lots) ∧ nearest_of c lots res) as Hfb.
  { intros Hnil. unfold res. rewrite parkingNear_empty by exact Hnil.
    apply nearest_three. }
  assert (within ≠ [] → res = within) as Hin.
  { intros Hne. by apply parkingNear_nonempty. }
  split; [by intros _|]. split.
  - intros [-> | Hne]; [reflexivity|by apply Hin].
  - intros Hlots. destruct (decide (within = [])) as [Hnil | Hne].
    + destruct (Hfb Hnil) as [Hlen _]. intros Hres. rewrite Hres in Hlen.
      destruct lots; [done|]. simpl in Hlen. lia.
    + by rewrite Hin.
Qed.

(** On the fixture: radius [-1] excludes every lot and three lots come
    back; centred on CP-101 with the default radius, the lots within
    900 m come back. *)
Lemma parkingNear_fallback_policy_witness :
  (length (parkingNear (fixture "t0") 0 0 (Some (-1)%R)) = 3 ∧
   parkingNear (fixture "t0") 0 0 (Some (-1)%R) ≠ []) ∧
  parkingNear (fixture "t0") (Q2R (-37.8173)) (Q2R 144.9655) None =
    filter (λ p, (haversine {| Geo.lat := Q2R (-37.8173); Geo.lng := Q2R 144.9655 |}
                    (pos p) <= 900)%R) (fixture "t0").
Proof.
  split.
  - destruct (parkingNear_fallback_policy (fixture "t0") 0 0 (Some (-1)%R))
      as (Hfb & _ & Hne).
    assert (fixture "t0" ≠ []) as Hlots by discriminate.
    destruct (Hfb Hlots) as [Hlen _].
    { apply within_negative_radius. simpl. lra. }
    exact (conj Hlen (Hne Hlots)).
  - destruct (parkingNear_fallback_policy (fixture "t0") (Q2R (-37.8173)) (Q2R 144.9655) None)
      as (_ & Hin & _).
    apply Hin. right. unfold fixture.
    rewrite filter_cons_True; [discriminate|].
    unfold pos. simpl. rewrite haversine_diag. lra.
Defined.

(** With [Math.random()] in [[0, 1)] the perturbation is between -4 and 3. *)
Lemma delta_of_bounds (r : Q) : (0 <= r)%Q → (r < 1)%Q → (-4 ≤ delta_of r ≤ 3)%Z.
Proof.
  intros H0 H1. unfold delta_of.
  assert (inject_Z (-4) <= (r - 0.5) * 8)%Q as Hlo.
  { unfold Qle, Qlt in *. destruct r as [n d]. simpl in *. lia. }
  assert ((r - 0.5) * 8 < inject_Z 4)%Q as Hhi.
  { unfold Qle, Qlt in *. destruct r as [n d]. simpl in *. lia. }
  apply Qfloor_resp_le in Hlo. rewrite Qfloor_Z in Hlo.
  pose proof (Qfloor_le ((r - 0.5) * 8)) as Hfl.
  assert (inject_Z (Qfloor ((r - 0.5) * 8)) < inject_Z 4)%Q as Hlt
    by (eapply Qle_lt_trans; eassumption).
  rewrite <- Zlt_Qlt in Hlt. lia.
Qed.

(** A run on the fixture with [Math.random()] always 0, so that every
    perturbation is -4: the unknown id is skipped, the id given three
    times is updated three times, and the third update, which would
    give -3, is clamped to 0. *)
Example pushUpdates_fixture :
  let E := {| Math_random := λ _, 0%Q; Date_toISOString := λ _, "t1" |} in
  (λ r : list Lot * list Lot,
     (id <$> r.1, available_spots <$> r.1, available_spots <$> r.2)) <$>
    pushUpdates E ["CP-202"; "CP-000"; "CP-202"; "CP-202"] (fixture "t0")
  = Some (["CP-202"; "CP-202"; "CP-202"], [5; 1; 0]%Z, [88; 47; 12; 61; 0]%Z).
Proof. vm_compute. reflexivity. Qed.

(** C3: on a store whose lots satisfy [0 ≤ available_spots ≤ capacity],
    [pushUpdates] returns, and every lot of the store afterwards and
    every returned record satisfies it again, whatever the ids and
    whatever [Math.random] returns. *)
Theorem pushUpdates_keeps_range (E : Env) (ids : list string) (lots : list Lot) :
  Forall in_range lots →
  ∃ changes lots',
    pushUpdates E ids lots = Some (changes, lots') ∧
    Forall in_range lots' ∧ Forall in_range changes.
Proof.
  intros Hinv. unfold pushUpdates.
  destruct (loop_total E ids lots 0 []) as (changes & lots' & k' & Hrun).
  rewrite Hrun. simpl. exists changes, lots'. split; [done|].
  eapply loop_in_range; [done..|constructor].
Qed.

Lemma pushUpdates_keeps_range_witness :
  let E := {| Math_random := λ k, if Nat.even k then 0%Q else 0.999%Q;
              Date_toISOString := λ _, "2025-01-01T00:00:00.000Z" |} in
  Forall in_range (fixture "t0") ∧
  ∃ changes lots',
    pushUpdates E ["CP-202"; "CP-202"; "CP-202"; "CP-103"] (fixture "t0")
      = Some (changes, lots') ∧
    Forall in_range lots' ∧ Forall in_range changes.
Proof.
  intros E.
  assert (Forall in_range (fixture "t0")) as Hinv.
  { unfold fixture, in_range. repeat constructor; simpl; lia. }
  exact (conj Hinv (pushUpdates_keeps_range E _ _ Hinv)).
Defined.

(** C7: [pushUpdates] always returns (no exception), the returned
    records are, in order, one per id of the list that exists in the
    store, and an id that is not in the store is the id of no returned
    record. *)
Theorem pushUpdates_skips_unknown_ids (E : Env) (ids : list string) (lots : list Lot) :
  ∃ changes lots',
    pushUpdates E ids lots = Some (changes, lots') ∧
    id <$> changes = filter (λ i, i ∈ id <$> lots) ids ∧
    ∀ i, i ∉ (id <$> lots) → i ∉ (id <$> changes).
Proof.
  unfold pushUpdates.
  destruct (loop_total E ids lots 0 []) as (changes & lots' & k' & Hrun).
  rewrite Hrun. simpl. exists changes, lots'. split; [done|].
  apply loop_ids in Hrun as [_ Hc]. simpl in Hc. split; [done|].
  intros i Hni. rewrite Hc. intros Hin. by apply list_elem_of_filter in Hin as [? _].
Qed.

Lemma pushUpdates_skips_unknown_ids_witness :
  let E := {| Math_random := λ _, 0.25%Q; Date_toISOString := λ _, EmptyString |} in
  ("CP-999" ∉ (id <$> fixture "t0")) ∧
  ∃ changes lots',
    pushUpdates E ["CP-101"; "CP-999"; "CP-202"] (fixture "t0") = Some (changes, lots') ∧
    id <$> changes = ["CP-101"; "CP-202"] ∧
    "CP-999" ∉ (id <$> changes).
Proof.
  intros E.
  assert ("CP-999" ∉ (id <$> fixture "t0")) as Hni.
  { simpl. rewrite !not_elem_of_cons. repeat split; try discriminate.
    apply not_elem_of_nil. }
  split; [exact Hni|].
  destruct (pushUpdates_skips_unknown_ids E ["CP-101"; "CP-999"; "CP-202"] (fixture "t0"))
    as (changes & lots' & Hrun & Hids & Hskip).
  exists changes, lots'. split; [exact Hrun|]. split; [|exact (Hskip _ Hni)].
  rewrite Hids. vm_compute. reflexivity.
Defined.

(** C9: [pushUpdates] returns, the store afterwards has the same
    length, and its lot at each position has the [id], [name], [lat],
    [lng], [capacity] and [price] of the lot that was there; a lot
    whose id is not in the list is unchanged in every field. Only
    [available_spots] and [updated_at] of lots named in the list can
    differ. *)
Theorem pushUpdates_frame (E : Env) (ids : list string) (lots : list Lot) :
  ∃ changes lots',
    pushUpdates E ids lots = Some (changes, lots') ∧
    length lots' = length lots ∧
    id <$> lots' = id <$> lots ∧
    Forall2 (framed ids) lots lots'.
Proof.
  unfold pushUpdates.
  destruct (loop_total E ids lots 0 []) as (changes & lots' & k' & Hrun).
  rewrite Hrun. simpl. exists changes, lots'. split; [done|].
  pose proof (loop_framed _ _ _ _ _ _ _ _ Hrun) as Hfr.
  split; [symmetry; by eapply Forall2_length|].
  split; [|done]. by apply loop_ids in Hrun as [? _].
Qed.

End MockFacts.

Module ClientFacts.
Import JSNum Client Wire.

Lemma mapBackendParking_number now p x :
  get p "available_spots" = JNumber x →
  available_spots (mapBackendParking now p) = JNumber x.
Proof. intros Hx. unfold mapBackendParking. simpl. by rewrite Hx. Qed.

Lemma mapBackendParking_not_number now p :
  ¬ is_number (get p "available_spots") →
  available_spots (mapBackendParking now p) = nullish (get p "available") (JNumber 0).
Proof.
  intros Hn. unfold mapBackendParking. simpl.
  destruct (get p "available_spots") eqn:Hv; try done.
  exfalso. apply Hn. by eexists.
Qed.

(** Outside what a service sends: on a record whose [available_spots] is
    present but is a string, [{..., available: 35, available_spots: "35"}],
    the code takes [available], 35, where
    [available_spots ?? available ?? 0] is the string ["35"]. *)
Example mapBackendParking_string_available_spots :
  available_spots (mapBackendParking "2025-01-01T00:00:00.000Z" wire_with_string_spots)
    = JNumber 35 ∧
  spec_available_spots wire_with_string_spots = JString "35" ∧
  available_spots (mapBackendParking "2025-01-01T00:00:00.000Z" wire_with_string_spots)
    ≠ spec_available_spots wire_with_string_spots.
Proof.
  assert (get wire_with_string_spots "available_spots" = JString "35") as Hs
    by (vm_compute; reflexivity).
  assert (get wire_with_string_spots "available" = JNumber 35) as Ha
    by (vm_compute; reflexivity).
  assert (available_spots (mapBackendParking "2025-01-01T00:00:00.000Z"
            wire_with_string_spots) = JNumber 35) as H1.
  { rewrite mapBackendParking_not_number; [by rewrite Ha|].
    rewrite Hs. by intros [x Hx]. }
  assert (spec_available_spots wire_with_string_spots = JString "35") as H2.
  { unfold spec_available_spots. by rewrite Hs. }
  split; [exact H1|]. split; [exact H2|]. rewrite H1, H2. discriminate.
Qed.

(** The fields of a record the service sends. *)
Lemma to_wire_fields (p : Server.ServiceLot) :
  get (to_wire p) "available_spots" = JUndefined ∧
  get (to_wire p) "available" = JNumber (Z2F (Server.available p)) ∧
  get (to_wire p) "id" = JString (Server.id p) ∧
  get (to_wire p) "name" = JString (Server.name p) ∧
  get (to_wire p) "lat" = JNumber (Q2F (Server.lat p)) ∧
  get (to_wire p) "lng" = JNumber (Q2F (Server.lng p)) ∧
  get (to_wire p) "capacity" = JNumber (Z2F (Server.capacity p)).
Proof. repeat split; reflexivity. Qed.

(** C8: every wire record received from the service has a numeric
    [available] and no [available_spots]; on it, and on every wire
    record whose [available_spots] is a number, [null] or absent, the
    normalised [available_spots] is [available_spots ?? available ?? 0]:
    the record's [available_spots] when present, otherwise the record's
    [available], otherwise 0. The fields [id], [name], [lat], [lng] and
    [capacity] are the record's. *)
Theorem mapBackendParking_service_records (now : string) :
  (∀ p : Server.ServiceLot, count_well_typed (to_wire p)) ∧
  (∀ p : Server.ServiceLot,
     available_spots (mapBackendParking now (to_wire p)) = spec_available_spots (to_wire p) ∧
     available_spots (mapBackendParking now (to_wire p)) = JNumber (Z2F (Server.available p))) ∧
  (∀ w, count_well_typed w →
     let r := mapBackendParking now w in
     available_spots r = spec_available_spots w ∧
     (¬ is_nullish (get w "available_spots") → available_spots r = get w "available_spots") ∧
     (is_nullish (get w "available_spots") → ¬ is_nullish (get w "available") →
        available_spots r = get w "available") ∧
     (is_nullish (get w "available_spots") → is_nullish (get w "available") →
        available_spots r = JNumber 0) ∧
     id r = get w "id" ∧ name r = get w "name" ∧ lat r = get w "lat" ∧
     lng r = get w "lng" ∧ capacity r = get w "capacity") ∧
  (∃ p, p ∈ Server.data ∧ to_wire p = wire_park001 ∧
        available_spots (mapBackendParking now wire_park001) = JNumber 35).
Proof.
  assert (∀ w, count_well_typed w →
            available_spots (mapBackendParking now w) = spec_available_spots w) as Hspec.
  { intros w [[x Hx] | Hnull]; unfold spec_available_spots.
    - rewrite (mapBackendParking_number _ _ _ Hx). by rewrite Hx.
    - rewrite mapBackendParking_not_number.
      + by destruct Hnull as [-> | ->].
      + intros [x Hx]. destruct Hnull; congruence. }
  assert (∀ p : Server.ServiceLot, count_well_typed (to_wire p)) as Htyped.
  { intros p. right. left. apply to_wire_fields. }
  assert (∀ p : Server.ServiceLot,
            available_spots (mapBackendParking now (to_wire p))
              = JNumber (Z2F (Server.available p))) as Hsent.
  { intros p. rewrite Hspec by done. unfold spec_available_spots.
    destruct (to_wire_fields p) as (-> & -> & _). done. }
  split; [exact Htyped|]. split; [|split].
  - intros p. split; [by apply Hspec|apply Hsent].
  - intros w Hw r. split; [by apply Hspec|]. split; [|split; [|split]].
    + intros Hnn. destruct Hw as [[x Hx] | Hnull]; [|done].
      unfold r. rewrite (mapBackendParking_number _ _ _ Hx). by rewrite Hx.
    + intros Hnull Ha. unfold r. rewrite Hspec by done. unfold spec_available_spots.
      destruct Hnull as [-> | ->]; simpl;
        destruct (get w "available"); try done; exfalso; apply Ha; unfold is_nullish; auto.
    + intros Hnull Ha. unfold r. rewrite Hspec by done. unfold spec_available_spots.
      destruct Hnull as [-> | ->], Ha as [-> | ->]; done.
    + done.
  - set (p0 := {| Server.id := "PARK001"; Server.name := "Flinders St Car Park";
                  Server.lat := (-37.8183)%Q; Server.lng := 144.9671%Q;
                  Server.capacity := 200; Server.available := 35 |}).
    assert (to_wire p0 = wire_park001) as Hw by (vm_compute; reflexivity).
    exists p0. split; [left|]. split; [exact Hw|].
    rewrite <- Hw, Hsent. vm_compute. reflexivity.
Qed.

End ClientFacts.

Module ResolveFacts.
Import Mock Resolve.

(** Whatever happened before, the completion of a suspended call puts
    the snapshot of that call on the page: there is no check that the
    call is the latest one. *)
Lemma arrive_shows_its_snapshot pg trace call place items :
  suspended (run pg trace) !! call = Some place →
  snapshot_of place items (run pg (trace ++ [Arrive call items])).
Proof.
  intros Hcall. unfold run. rewrite foldl_app. simpl.
  fold (run pg trace). by rewrite Hcall.
Qed.

(** The page after [chooseDestination(A)] and [chooseDestination(B)]
    have both reached their [await]. *)
Lemma run_two_chosen pg A B :
  run pg [Choose A; Choose B] =
  {| searchBox := place_name B; currentDestination := Some B; statusEl := Loading;
     shown := shown pg;
     suspended := <[S (calls pg) := B]> (<[calls pg := A]> (suspended pg));
     calls := S (S (calls pg)) |}.
Proof. reflexivity. Qed.

(** The two fetches complete in the order of the calls. *)
Lemma run_in_order pg A B ia ib :
  let pg' := run pg [Choose A; Choose B; Arrive (calls pg) ia; Arrive (S (calls pg)) ib] in
  shown pg' = enrich B ib ∧
  statusEl pg' = match ib with [] => NoCarParks | _ => Showing (length ib) (place_name B) end ∧
  currentDestination pg' = Some B ∧ searchBox pg' = place_name B.
Proof.
  unfold run. simpl.
  rewrite lookup_insert_ne by lia. rewrite lookup_insert_eq. simpl.
  rewrite lookup_delete_ne by lia. rewrite lookup_insert_eq. simpl. done.
Qed.

(** The fetch of the second call completes first. *)
Lemma run_out_of_order pg A B ia ib :
  let pg' := run pg [Choose A; Choose B; Arrive (S (calls pg)) ib; Arrive (calls pg) ia] in
  shown pg' = enrich A ia ∧
  statusEl pg' = match ia with [] => NoCarParks | _ => Showing (length ia) (place_name A) end ∧
  currentDestination pg' = Some B ∧ searchBox pg' = place_name B.
Proof.
  unfold run. simpl.
  rewrite lookup_insert_eq. simpl.
  rewrite lookup_delete_ne by lia. rewrite lookup_insert_ne by lia.
  rewrite lookup_insert_eq. simpl. done.
Qed.

(** C4, as stated, fails when the fetch of the superseded resolve
    completes last: after resolve(Flinders Street), resolve(Southgate),
    arrival of Southgate's lots and then of Flinders Street's lots, the
    page shows the lot and the status line of Flinders Street, not the
    snapshot of Southgate. *)
Lemma chooseDestination_stale_result_shown :
  let pg := run initial [ Choose flinders_street; Choose southgate;
                          Arrive 1 lots_southgate; Arrive 0 lots_flinders_street ] in
  currentDestination pg = Some southgate ∧
  statusEl pg = Showing 1 "Flinders Street" ∧
  (id ∘ lot) <$> shown pg = ["PARK001"] ∧
  ¬ snapshot_of southgate lots_southgate pg.
Proof.
  destruct (run_out_of_order initial flinders_street southgate
              lots_flinders_street lots_southgate) as (Hshown & Hstatus & Hcur & _).
  change (calls initial) with 0 in *. cbv zeta in *.
  split; [exact Hcur|]. split; [exact Hstatus|]. split.
  - rewrite Hshown. reflexivity.
  - intros [_ Hst]. rewrite Hstatus in Hst. discriminate.
Qed.

(** C4, amended: when resolve(A) and then resolve(B) are initiated
    before either fetch completes, the page shows, once both fetches have
    completed, the snapshot of the resolve whose fetch completed last:
    that of B when the fetches complete in the order of the calls, that
    of A when B's fetch completes first. No result is discarded. In
    both orders [currentDestination] is B and the search box holds B's
    name. *)
Theorem chooseDestination_last_arrival_shown (pg : Page) (A B : Place) (ia ib : list Lot) :
  let a := calls pg in
  let b := S (calls pg) in
  let in_order := run pg [Choose A; Choose B; Arrive a ia; Arrive b ib] in
  let reversed := run pg [Choose A; Choose B; Arrive b ib; Arrive a ia] in
  snapshot_of B ib in_order ∧
  snapshot_of A ia reversed ∧
  currentDestination in_order = Some B ∧ currentDestination reversed = Some B ∧
  searchBox in_order = place_name B ∧ searchBox reversed = place_name B.
Proof.
  intros a b in_order reversed.
  destruct (run_in_order pg A B ia ib) as (H1 & H2 & H3 & H4).
  destruct (run_out_of_order pg A B ia ib) as (H5 & H6 & H7 & H8).
  unfold snapshot_of. done.
Qed.

End ResolveFacts.

Module ServerFacts.
Import Server.

Example split_examples :
  split_ws "a  b" = ["a"; "b"] ∧ split_ws " a" = [EmptyString; "a"] ∧
  split_ws EmptyString = [EmptyString] ∧ split_ws "fed square" = ["fed"; "square"] ∧
  trim "  Fed  Square  " = "Fed  Square" ∧ toLowerCase "QV Melbourne" = "qv melbourne".
Proof. repeat split; vm_compute; reflexivity. Qed.

(** [includes s t] holds exactly when [t] occurs in [s]. *)
Lemma prefix_app (t s : string) :
  String.prefix t s = true ↔ ∃ b, s = String.append t b.
Proof.
  revert s. induction t as [|c t IH]; intros s; simpl.
  - split; [|by destruct s]. intros _. exists s. by destruct s.
  - destruct s as [|d s]; simpl.
    + split; [done|]. by intros [b [=]].
    + destruct (ascii_dec c d) as [->|Hne].
      * rewrite IH. split; intros [b Hb]; exists b; [by rewrite Hb|by injection Hb].
      * split; [done|]. intros [b [= <- _]]. done.
Qed.

Lemma includes_spec (s t : string) :
  includes s t = true ↔ ∃ a b, s = String.append a (String.append t b).
Proof.
  induction s as [|c s IH].
  - change (includes EmptyString t) with (String.prefix t EmptyString || false).
    rewrite orb_false_r, prefix_app. split.
    + intros [b Hb]. by exists EmptyString, b.
    + intros (a & b & Hab). destruct a; simpl in Hab; [by exists b|done].
  - change (includes (String c s) t) with (String.prefix t (String c s) || includes s t).
    rewrite orb_true_iff, prefix_app, IH. split.
    + intros [[b Hb] | (a & b & Hab)].
      * by exists EmptyString, b.
      * exists (String c a), b. simpl. by rewrite Hab.
    + intros (a & b & Hab). destruct a as [|d a]; simpl in Hab.
      * left. by exists b.
      * right. injection Hab as -> Hs. by exists a, b.
Qed.

Lemma ends_ink_cons c s : s ≠ EmptyString → ends_ink (String c s) = ends_ink s.
Proof. by destruct s. Qed.

Lemma ends_ink_rev_app s acc :
  acc ≠ EmptyString → ends_ink (String.rev_app s acc) = ends_ink acc.
Proof.
  revert acc. induction s as [|c s IH]; intros acc Hacc; simpl; [done|].
  rewrite IH by done. by apply ends_ink_cons.
Qed.

Lemma ends_ink_rev s : ends_ink (String.rev s) = starts_ink s.
Proof.
  destruct s as [|c s]; [done|]. unfold String.rev. simpl.
  by rewrite ends_ink_rev_app.
Qed.

Lemma starts_ink_rev_app s acc :
  starts_ink (String.rev_app s acc) =
  match s with EmptyString => starts_ink acc | _ => ends_ink s end.
Proof.
  revert acc. induction s as [|c s IH]; intros acc; [done|].
  simpl String.rev_app. rewrite IH. by destruct s.
Qed.

Lemma starts_ink_rev s : starts_ink (String.rev s) = ends_ink s.
Proof. unfold String.rev. rewrite starts_ink_rev_app. by destruct s. Qed.

Lemma starts_ink_trimStart s : starts_ink (trimStart s) = nonempty (trimStart s).
Proof.
  induction s as [|c s IH]; [done|]. simpl.
  destruct (is_space c) eqn:Hc; [done|]. simpl. by rewrite Hc.
Qed.

Lemma ends_ink_trimStart s : ends_ink (trimStart s) = ends_ink s.
Proof.
  induction s as [|c s IH]; [done|]. simpl trimStart.
  destruct (is_space c) eqn:Hc; [|done].
  rewrite IH. destruct s; [by simpl; rewrite Hc|done].
Qed.

Lemma rev_app_nonempty s acc : acc ≠ EmptyString → String.rev_app s acc ≠ EmptyString.
Proof. revert acc. induction s as [|c s IH]; intros acc Ha; simpl; [done|]. by apply IH. Qed.

Lemma nonempty_rev s : nonempty (String.rev s) = nonempty s.
Proof.
  destruct s as [|c s]; [done|]. unfold String.rev. simpl.
  pose proof (rev_app_nonempty s (String c EmptyString)) as Hne.
  destruct (String.rev_app s (String c EmptyString)); [by exfalso; apply Hne|done].
Qed.

Lemma nonempty_true s : nonempty s = true ↔ s ≠ EmptyString.
Proof. destruct s; simpl; split; done. Qed.

(** A trimmed string that is not empty starts and ends with a
    character that is not white space. *)
Lemma trim_ink s :
  nonempty (trim s) = true → starts_ink (trim s) = true ∧ ends_ink (trim s) = true.
Proof.
  unfold trim, trimEnd. intros Hne. split.
  - rewrite starts_ink_rev, ends_ink_trimStart, ends_ink_rev, starts_ink_trimStart.
    destruct (trimStart s); [done|done].
  - rewrite ends_ink_rev, starts_ink_trimStart. by rewrite nonempty_rev in Hne.
Qed.

Lemma split_go_nonempty s : ∀ cur b,
  ends_ink s = true →
  (b = false → cur = EmptyString → starts_ink s = true) →
  Forall (λ t, nonempty t = true) (split_go s cur b).
Proof.
  induction s as [|c s IH]; intros cur b Hend Hstart; [done|].
  simpl split_go. destruct (is_space c) eqn:Hc.
  - assert (s ≠ EmptyString) as Hs.
    { intros ->. simpl in Hend. by rewrite Hc in Hend. }
    rewrite ends_ink_cons in Hend by done.
    destruct b.
    + apply IH; [done|]. intros [=].
    + constructor.
      * rewrite nonempty_rev. apply nonempty_true. intros ->.
        specialize (Hstart eq_refl eq_refl). simpl in Hstart. by rewrite Hc in Hstart.
      * apply IH; [done|]. intros [=].
  - destruct s as [|d s].
    + simpl. constructor; [|done]. by rewrite nonempty_rev.
    + apply IH; [by rewrite ends_ink_cons in Hend|]. intros _ [=].
Qed.

Lemma filter_all {A} (f : A → bool) (l : list A) :
  Forall (λ x, f x = true) l → List.filter f l = l.
Proof. induction 1 as [|x l Hx _ IH]; simpl; [done|]. by rewrite Hx, IH. Qed.

(** The tokens that reach the name test are all the pieces of the
    split: a query that is not empty has no empty piece. *)
Lemma tokens_of_split dest :
  nonempty (query_of dest) = true → tokens_of dest = split_ws (query_of dest).
Proof.
  intros Hne. unfold tokens_of. apply filter_all.
  destruct (trim_ink _ Hne) as [Hs He].
  apply split_go_nonempty; [done|]. by intros _ _.
Qed.

Lemma includes_empty s : includes s EmptyString = true.
Proof. by destruct s. Qed.

Lemma name_filter_split dest results :
  name_filter dest results =
  List.filter (λ p, existsb (includes (toLowerCase (name p))) (split_ws (query_of dest)))
    results.
Proof.
  unfold name_filter. destruct (nonempty (query_of dest)) eqn:Hq.
  - fold (tokens_of dest). by rewrite tokens_of_split.
  - assert (query_of dest = EmptyString) as -> by (by destruct (query_of dest)).
    symmetry. apply filter_all. apply Forall_forall. intros p _. simpl.
    by rewrite includes_empty.
Qed.
Lemma matches_spec (toks : list string) (p : ServiceLot) :
  existsb (includes (toLowerCase (name p))) toks = true ↔
  ∃ t, t ∈ toks ∧ occurs_in t (toLowerCase (name p)).
Proof.
  rewrite existsb_exists. split.
  - intros (t & Hin & Hinc). exists t. split; [by apply list_elem_of_In|].
    by apply includes_spec.
  - intros (t & Hin & Hocc). exists t. split; [by apply list_elem_of_In|].
    by apply includes_spec.
Qed.

Lemma radius_filter_skipped wr q results :
  q_lat q = None ∨ q_lng q = None → radius_filter wr q results = results.
Proof.
  intros Hmiss. unfold radius_filter.
  destruct Hmiss as [-> | ->]; simpl; [done|].
  by rewrite andb_false_r.
Qed.

Lemma get_parking_without_coordinates wr dest lat lng radius :
  lat = None ∨ lng = None →
  get_parking wr {| q_dest := dest; q_lat := lat; q_lng := lng; q_radius := radius |}
  = name_filter (default EmptyString dest) data.
Proof.
  intros Hmiss. unfold get_parking. by rewrite radius_filter_skipped.
Qed.

(** A request without [dest], or with an empty or blank one, gets every
    record: the split of the empty query is the single empty piece, which
    occurs in every name, and the handler skips the name filter. *)
Lemma get_parking_blank_dest wr dest radius :
  nonempty (query_of (default EmptyString dest)) = false →
  split_ws (query_of (default EmptyString dest)) = [EmptyString] ∧
  get_parking wr {| q_dest := dest; q_lat := None; q_lng := None; q_radius := radius |}
    = data.
Proof.
  intros Hq. split.
  - by destruct (query_of (default EmptyString dest)).
  - rewrite get_parking_without_coordinates by (by left).
    unfold name_filter. by rewrite Hq.
Qed.

(** *** [split_ws] against the claim's words *)

Lemma app_cons c (a b : string) : String c a +:+ b = String c (a +:+ b).
Proof. reflexivity. Qed.

Lemma app_empty_l (b : string) : EmptyString +:+ b = b.
Proof. reflexivity. Qed.

Lemma app_empty_r (a : string) : a +:+ EmptyString = a.
Proof. induction a as [|c a IH]; [done|]. by rewrite app_cons, IH. Qed.

Lemma app_assoc_string (a b c : string) : (a +:+ b) +:+ c = a +:+ b +:+ c.
Proof. induction a as [|x a IH]; [done|]. by rewrite !app_cons, IH. Qed.

Lemma rev_app_app (s acc : string) : String.rev_app s acc = String.rev s +:+ acc.
Proof.
  unfold String.rev. revert acc. induction s as [|c s IH]; intros acc; [done|].
  simpl. rewrite (IH (String c acc)), (IH (String c EmptyString)).
  by rewrite app_assoc_string.
Qed.

Lemma all_chars_app f (a b : string) :
  all_chars f (a +:+ b) = all_chars f a && all_chars f b.
Proof.
  induction a as [|c a IH]; [done|]. rewrite app_cons. simpl.
  by rewrite IH, andb_assoc.
Qed.

Lemma all_chars_rev f (s : string) : all_chars f (String.rev s) = all_chars f s.
Proof.
  induction s as [|c s IH]; [done|].
  unfold String.rev. simpl. rewrite rev_app_app, all_chars_app, IH. simpl.
  by rewrite andb_true_r, andb_comm.
Qed.

Lemma leading_space_trimStart s :
  s = leading_space s +:+ trimStart s ∧
  all_chars is_space (leading_space s) = true ∧
  starts_with is_space (trimStart s) = false.
Proof.
  induction s as [|c s (IH1 & IH2 & IH3)]; [done|]. simpl.
  destruct (is_space c) eqn:Hc.
  - rewrite app_cons, <- IH1. simpl. by rewrite Hc.
  - simpl. by rewrite Hc.
Qed.

(** [split_ws] does what the claim's words say. *)
Lemma split_go_spec s :
  (∀ cur, all_chars is_ink cur = true →
          spec_split_on_whitespace (String.rev_app cur s) (split_go s cur false)) ∧
  spec_split_on_whitespace (trimStart s) (split_go s EmptyString true).
Proof.
  induction s as [|c s [IH1 IH2]].
  - split.
    + intros cur Hcur. simpl. apply spec_split_last. fold (String.rev cur).
      by rewrite all_chars_rev.
    + by apply spec_split_last.
  - split.
    + intros cur Hcur. simpl. destruct (is_space c) eqn:Hc.
      * destruct (leading_space_trimStart s) as (Hs & Hsp & Hst).
        apply (spec_split_more _ (String.rev cur) (String c (leading_space s))
                 (trimStart s)); try done.
        -- rewrite rev_app_app. f_equal. by rewrite app_cons, <- Hs.
        -- by rewrite all_chars_rev.
        -- simpl. by rewrite Hc.
      * apply (IH1 (String c cur)). simpl. unfold is_ink at 1. by rewrite Hc.
    + simpl. destruct (is_space c) eqn:Hc; [done|].
      apply (IH1 (String c EmptyString)). simpl. unfold is_ink. by rewrite Hc.
Qed.

Lemma split_ws_spec s : spec_split_on_whitespace s (split_ws s).
Proof. apply (proj1 (split_go_spec s) EmptyString). done. Qed.

Lemma span_unique f (a1 b1 a2 b2 : string) :
  all_chars f a1 = true → all_chars f a2 = true →
  starts_with f b1 = false → starts_with f b2 = false →
  a1 +:+ b1 = a2 +:+ b2 → a1 = a2 ∧ b1 = b2.
Proof.
  revert a2. induction a1 as [|c a1 IH]; intros [|d a2] H1 H2 Hb1 Hb2 Heq.
  - done.
  - rewrite app_empty_l, app_cons in Heq. subst b1. simpl in *.
    apply andb_true_iff in H2 as [H2 _]. congruence.
  - rewrite app_empty_l, app_cons in Heq. subst b2. simpl in *.
    apply andb_true_iff in H1 as [H1 _]. congruence.
  - rewrite !app_cons in Heq. injection Heq as -> Heq. simpl in *.
    apply andb_true_iff in H1 as [_ H1]. apply andb_true_iff in H2 as [_ H2].
    destruct (IH a2 H1 H2 Hb1 Hb2 Heq) as [-> ->]. done.
Qed.

Lemma starts_with_sep (sep rest : string) :
  sep ≠ EmptyString → all_chars is_space sep = true →
  starts_with is_ink (sep +:+ rest) = false.
Proof.
  destruct sep as [|c sep]; [done|]. intros _ H. simpl in *.
  apply andb_true_iff in H as [H _]. unfold is_ink. by rewrite H.
Qed.

Lemma ink_no_sep (w sep rest : string) :
  all_chars is_ink (w +:+ sep +:+ rest) = true →
  sep ≠ EmptyString → all_chars is_space sep = true → False.
Proof.
  rewrite !all_chars_app. destruct sep as [|c sep]; [done|]. simpl.
  unfold is_ink. intros H _ Hc. apply andb_true_iff in Hc as [Hc _].
  rewrite Hc in H. simpl in H. by rewrite andb_false_r in H.
Qed.

Lemma spec_split_unique s ps1 ps2 :
  spec_split_on_whitespace s ps1 → spec_split_on_whitespace s ps2 → ps1 = ps2.
Proof.
  intros H1. revert ps2.
  induction H1 as [w Hw | s w sep rest pieces Hs Hw Hne Hsep Hrest Hsplit IH];
    intros ps2 H2.
  - inversion H2 as [w' Hw' | s' w' sep' rest' pieces' Hs' Hw' Hne' Hsep' Hrest' Hsplit'];
      subst; [done|].
    exfalso. by eapply ink_no_sep.
  - inversion H2 as [w' Hw' | s' w' sep' rest' pieces' Hs' Hw' Hne' Hsep' Hrest' Hsplit'];
      subst.
    + exfalso. by eapply ink_no_sep.
    + destruct (span_unique is_ink w (sep +:+ rest) w' (sep' +:+ rest')) as [-> Heq];
        try done; try (by apply starts_with_sep).
      destruct (span_unique is_space sep rest sep' rest') as [-> ->]; try done.
      f_equal. by apply IH.
Qed.

(** C6: on a request without coordinates no radius filter is applied,
    and the response is the fixture filtered by name. With [dest]
    lower-cased and trimmed, and [pieces] its parts between the maximal
    runs of white space (there is exactly one such list, and it is what
    [split(/\s+/)] gives), a record is kept exactly when some piece
    occurs in its lower-cased name. The records keep the order of the
    fixture. For [dest=flinders] the only record returned is PARK001;
    for a [dest] of two words it is the records with either word. *)
Theorem get_parking_name_filter
    (wr : Query → ServiceLot → bool) (dest radius : option string) :
  let q := {| q_dest := dest; q_lat := None; q_lng := None; q_radius := radius |} in
  let query := trim (toLowerCase (default EmptyString dest)) in
  (∃ pieces,
     spec_split_on_whitespace query pieces ∧
     (∀ ps, spec_split_on_whitespace query ps → ps = pieces) ∧
     pieces = split_ws query ∧
     get_parking wr q
       = List.filter (λ p, existsb (includes (toLowerCase (name p))) pieces) data ∧
     (∀ p, p ∈ get_parking wr q ↔
           p ∈ data ∧ ∃ t, t ∈ pieces ∧ occurs_in t (toLowerCase (name p)))) ∧
  id <$> get_parking wr
           {| q_dest := Some "flinders"; q_lat := None; q_lng := None; q_radius := radius |}
    = ["PARK001"] ∧
  spec_split_on_whitespace "qv   central" ["qv"; "central"] ∧
  id <$> get_parking wr
           {| q_dest := Some "  QV   central "; q_lat := None; q_lng := None;
              q_radius := radius |}
    = ["PARK003"; "PARK004"].
Proof.
  intros q query. split; [|split; [|split]].
  - exists (split_ws query).
    assert (get_parking wr q
            = List.filter (λ p, existsb (includes (toLowerCase (name p))) (split_ws query))
                data) as Hq.
    { unfold q. rewrite get_parking_without_coordinates by (by left).
      apply name_filter_split. }
    split; [apply split_ws_spec|]. split.
    { intros ps Hps. eapply spec_split_unique; [exact Hps|apply split_ws_spec]. }
    split; [done|]. split; [exact Hq|].
    intros p. rewrite Hq, list_elem_of_In, filter_In, <- list_elem_of_In.
    by rewrite matches_spec.
  - rewrite get_parking_without_coordinates by (by left). reflexivity.
  - apply (split_ws_spec "qv   central").
  - rewrite get_parking_without_coordinates by (by left). reflexivity.
Qed.

(** Several tokens, repeated white space and upper case. *)
Example get_parking_two_tokens wr :
  id <$> get_parking wr {| q_dest := Some "  QV   central "; q_lat := None;
                           q_lng := None; q_radius := Some "50" |}
    = ["PARK003"; "PARK004"].
Proof. rewrite get_parking_without_coordinates by (by left). reflexivity. Qed.

(** C10: when [lat] or [lng] is absent, the radius filter is not
    applied: every record of the fixture reaches the name filter, and
    the response is the name filter's result on the whole fixture,
    whatever [radius] is and whatever the radius test would answer. *)
Theorem get_parking_radius_needs_both
    (wr : Query → ServiceLot → bool) (dest lat lng radius : option string) :
  lat = None ∨ lng = None →
  let q := {| q_dest := dest; q_lat := lat; q_lng := lng; q_radius := radius |} in
  radius_filter wr q data = data ∧
  get_parking wr q = name_filter (default EmptyString dest) data.
Proof.
  intros Hmiss q. split.
  - by apply radius_filter_skipped.
  - by apply get_parking_without_coordinates.
Qed.

(** A latitude alone, with a radius of one metre and a radius test that
    would reject every record. *)
Lemma get_parking_radius_needs_both_witness :
  let q := {| q_dest := Some "car"; q_lat := Some "-37.81"; q_lng := None;
              q_radius := Some "1" |} in
  (q_lat q = None ∨ q_lng q = None) ∧
  radius_filter (λ _ _, false) q data = data ∧
  id <$> get_parking (λ _ _, false) q = ["PARK001"; "PARK005"].
Proof.
  intros q.
  assert (q_lat q = None ∨ q_lng q = None) as Hmiss by (right; reflexivity).
  destruct (get_parking_radius_needs_both (λ _ _, false)
              (Some "car") (Some "-37.81") None (Some "1") Hmiss) as [Hr Hg].
  split; [exact Hmiss|]. split; [exact Hr|].
  unfold q. rewrite Hg. reflexivity.
Defined.

(** An empty [lat] counts as absent. *)
Example radius_filter_empty_lat wr :
  radius_filter wr {| q_dest := None; q_lat := Some EmptyString; q_lng := Some "144.96";
                      q_radius := Some "1" |} data = data.
Proof. reflexivity. Qed.

(** When both coordinates are given and are not empty, the radius test
    decides. *)
Lemma radius_filter_applied wr q results :
  truthy (q_lat q) = true → truthy (q_lng q) = true →
  radius_filter wr q results = List.filter (wr q) results.
Proof. intros Hlat Hlng. unfold radius_filter. by rewrite Hlat, Hlng. Qed.

End ServerFacts.

Module ServerRoutesFacts.
Import Server ServerRoutes.

Lemma find_by_id_Some i l p : find_by_id i l = Some p → id p = i ∧ p ∈ l.
Proof.
  unfold find_by_id. intros Hf. apply find_some in Hf as [Hin Heq].
  split; [by apply String.eqb_eq|by apply list_elem_of_In].
Qed.

Lemma find_by_id_None i l : i ∉ id <$> l → find_by_id i l = None.
Proof.
  intros Hni. unfold find_by_id.
  destruct (List.find _ l) as [p|] eqn:Hf; [|done].
  exfalso. apply find_by_id_Some in Hf as [<- Hin]. apply Hni.
  apply list_elem_of_fmap. eauto.
Qed.

Lemma find_by_id_own (l : list ServiceLot) p :
  NoDup (id <$> l) → p ∈ l → find_by_id (id p) l = Some p.
Proof.
  induction l as [|x l IH]; intros Hnd Hin; [by apply elem_of_nil in Hin|].
  rewrite fmap_cons in Hnd. apply NoDup_cons in Hnd as [Hx Hnd].
  unfold find_by_id. simpl.
  apply elem_of_cons in Hin as [->|Hin].
  - by rewrite String.eqb_refl.
  - destruct (String.eqb (id x) (id p)) eqn:Heq.
    + apply String.eqb_eq in Heq. exfalso. apply Hx. rewrite Heq.
      apply list_elem_of_fmap. eauto.
    + by apply IH.
Qed.

Lemma data_ids_NoDup : NoDup (id <$> data).
Proof. apply (bool_decide_unpack _). vm_compute. reflexivity. Qed.

(** X1. [GET /api/v1/parking/:id]: the id of a record of the service
    gives back that record; an id that no record has gives the 404
    response with the error [Not found]; and whatever record is sent has
    the id that was asked for. *)
Theorem get_parking_by_id_round_trip :
  (∀ p, p ∈ data → get_parking_by_id (id p) = Ok p) ∧
  (∀ i, i ∉ id <$> data → get_parking_by_id i = NotFound "Not found") ∧
  (∀ i p, get_parking_by_id i = Ok p → id p = i ∧ p ∈ data).
Proof.
  split; [|split].
  - intros p Hp. unfold get_parking_by_id.
    by rewrite (find_by_id_own data p data_ids_NoDup Hp).
  - intros i Hi. unfold get_parking_by_id. by rewrite find_by_id_None.
  - intros i p. unfold get_parking_by_id.
    destruct (find_by_id i data) as [found|] eqn:Hf; [|done].
    intros [= <-]. by apply find_by_id_Some.
Qed.

Lemma lower_char_idem c : lower_char (lower_char c) = lower_char c.
Proof. destruct c as [[] [] [] [] [] [] [] []]; reflexivity. Qed.

Lemma toLowerCase_idem s : toLowerCase (toLowerCase s) = toLowerCase s.
Proof. induction s as [|c s IH]; simpl; [done|]. by rewrite lower_char_idem, IH. Qed.

Lemma List_filter_sublist {A} (f : A → bool) (l : list A) : List.filter f l `sublist_of` l.
Proof.
  induction l as [|x l IH]; simpl; [constructor|].
  destruct (f x); by constructor.
Qed.

Lemma List_filter_comm {A} (f g : A → bool) (l : list A) :
  List.filter f (List.filter g l) = List.filter g (List.filter f l).
Proof.
  induction l as [|x l IH]; simpl; [done|].
  destruct (f x) eqn:Hf, (g x) eqn:Hg; simpl; rewrite ?Hf, ?Hg, ?IH; done.
Qed.

Lemma List_filter_idem {A} (f : A → bool) (l : list A) :
  List.filter f (List.filter f l) = List.filter f l.
Proof.
  induction l as [|x l IH]; simpl; [done|].
  destruct (f x) eqn:Hf; simpl; rewrite ?Hf, ?IH; done.
Qed.

(** X2. [GET /api/v1/geo/search]: the items are places of the gazetteer
    in its order; a blank query gives the first five; any other query
    gives exactly the places whose lower-cased name contains the trimmed,
    lower-cased query; and the case of the query does not matter. *)
Theorem geo_search_matches (q : option string) :
  let qn := trim (toLowerCase (default EmptyString q)) in
  geo_search q `sublist_of` places ∧
  (nonempty qn = false → geo_search q = take 5 places) ∧
  (nonempty qn = true →
     ∀ p, p ∈ geo_search q ↔ p ∈ places ∧ occurs_in qn (toLowerCase (sp_name p))) ∧
  geo_search (toLowerCase <$> q) = geo_search q.
Proof.
  intros qn. split; [|split; [|split]].
  - unfold geo_search. fold qn. destruct (nonempty qn).
    + apply List_filter_sublist.
    + apply sublist_take.
  - intros Hq. unfold geo_search. fold qn. by rewrite Hq.
  - intros Hq p. unfold geo_search. fold qn. rewrite Hq.
    rewrite list_elem_of_In, filter_In, <- list_elem_of_In.
    by rewrite ServerFacts.includes_spec.
  - unfold geo_search. destruct q as [s|]; simpl; [|done].
    by rewrite toLowerCase_idem.
Qed.

(** On a request in which each parameter occurs at most once the
    response holds records of [data] only, each at most once and in the
    order of [data]. *)
Lemma get_parking_sublist wr q : get_parking wr q `sublist_of` data.
Proof.
  unfold get_parking, name_filter, radius_filter.
  assert (∀ {A} (f : A → bool) (l l' : list A),
            l `sublist_of` l' → List.filter f l `sublist_of` l') as Hs.
  { intros A f l l' H. etrans; [apply List_filter_sublist|done]. }
  destruct (nonempty _), (truthy (q_lat q) && truthy (q_lng q)); auto using List_filter_sublist.
Qed.

(** X4. The two filters of [GET /api/v1/parking] commute, and filtering
    by name twice is filtering once. *)
Theorem filters_commute wr q dest (results : list ServiceLot) :
  name_filter dest (radius_filter wr q results)
    = radius_filter wr q (name_filter dest results) ∧
  name_filter dest (name_filter dest results) = name_filter dest results.
Proof.
  unfold name_filter, radius_filter.
  destruct (nonempty _), (truthy (q_lat q) && truthy (q_lng q));
    auto using List_filter_comm, List_filter_idem.
Qed.

(** X5. Adding words to a non-blank [dest] never loses a car park: the
    name filter keeps a record when any one token occurs in its name. *)
Theorem name_filter_more_tokens d1 d2 (results : list ServiceLot) :
  nonempty (query_of d1) = true →
  (∀ t, t ∈ tokens_of d1 → t ∈ tokens_of d2) →
  ∀ p, p ∈ name_filter d1 results → p ∈ name_filter d2 results.
Proof.
  intros Hq1 Hsub p. unfold name_filter. rewrite Hq1.
  fold (tokens_of d1). fold (tokens_of d2).
  rewrite list_elem_of_In, filter_In. intros [Hin Hex].
  destruct (nonempty (query_of d2)); [|by apply list_elem_of_In].
  apply list_elem_of_In, filter_In. split; [done|].
  apply existsb_exists in Hex as (t & Ht & Hinc).
  apply existsb_exists. exists t. split; [|done].
  apply list_elem_of_In, Hsub. by apply list_elem_of_In.
Qed.

Lemma name_filter_more_tokens_witness :
  let p := {| id := "PARK004"; name := "Melbourne Central CP"; lat := -37.8107;
              lng := 144.9626; capacity := 450; available := 80 |} in
  p ∈ name_filter "central" data ∧ p ∈ name_filter "QV  Central" data.
Proof.
  intros p.
  assert (p ∈ name_filter "central" data) as Hin.
  { apply list_elem_of_In. vm_compute. auto. }
  split; [exact Hin|].
  apply (name_filter_more_tokens "central" "QV  Central" data); [reflexivity| |exact Hin].
  intros t Ht.
  replace (tokens_of "central") with ["central"] in Ht by reflexivity.
  replace (tokens_of "QV  Central") with ["qv"; "central"] by reflexivity.
  apply elem_of_cons in Ht as [-> | Ht]; [by right; left|by apply elem_of_nil in Ht].
Defined.
End ServerRoutesFacts.

Module ServerRequestFacts.
Import Server ServerRequest ServerRoutesFacts.

Lemma truthy_of_query (o : option string) : truthy_value (QString <$> o) = truthy o.
Proof. by destruct o. Qed.

(** On a request of strings the handler is [get_parking]. *)
Lemma handle_of_query rt wr (q : Query) :
  (truthy (q_lat q) && truthy (q_lng q) = true → rt (of_query q) = Some (wr q)) →
  handle rt (of_query q) = Json (get_parking wr q).
Proof.
  intros Hrt. unfold handle, get_parking, radius_filter.
  change (r_lat (of_query q)) with (QString <$> q_lat q).
  change (r_lng (of_query q)) with (QString <$> q_lng q).
  change (r_dest (of_query q)) with (QString <$> q_dest q).
  rewrite !truthy_of_query.
  destruct (truthy (q_lat q) && truthy (q_lng q)) eqn:Hc.
  - rewrite Hrt by done. simpl. by destruct (q_dest q).
  - by destruct (q_dest q).
Qed.

Lemma name_filter_sublist dest (results : list ServiceLot) :
  name_filter dest results `sublist_of` results.
Proof. unfold name_filter. destruct (nonempty _); [apply List_filter_sublist|done]. Qed.

(** X3. Whatever the request, [GET /api/v1/parking] answers either with
    the status 500, or with records of [data] only, each at most once
    and in the order of [data]. It answers 500 exactly when [dest] is an
    array or an object, or [lat] and [lng] are both truthy and the
    radius test throws. When each parameter occurs at most once the
    reply is the response of [get_parking]. *)
Theorem parking_reply rt (r : Request) :
  (dest_is_text r && radius_test_returns rt r = true →
     ∃ body, handle rt r = Json body ∧ body `sublist_of` data) ∧
  (dest_is_text r && radius_test_returns rt r = false →
     handle rt r = InternalServerError) ∧
  (∀ wr q, r = of_query q →
     (truthy (q_lat q) && truthy (q_lng q) = true → rt r = Some (wr q)) →
     handle rt r = Json (get_parking wr q)).
Proof.
  split; [|split].
  - intros [Hd Hr]%andb_true_iff. unfold handle, dest_is_text, radius_test_returns in *.
    remember data as d eqn:Hdata.
    destruct (truthy_value (r_lat r) && truthy_value (r_lng r)); simpl in *.
    + apply bool_decide_eq_true in Hr as [f Hf]. rewrite Hf. simpl.
      destruct (r_dest r) as [[dest|json]|]; try done; simpl; eexists; (split; [done|]).
      * etrans; [apply name_filter_sublist|apply List_filter_sublist].
      * etrans; [apply name_filter_sublist|apply List_filter_sublist].
    + destruct (r_dest r) as [[dest|json]|]; try done; simpl; eexists; (split; [done|]);
        apply name_filter_sublist.
  - intros Hf. unfold handle, dest_is_text, radius_test_returns in *.
    remember data as d eqn:Hdata.
    destruct (truthy_value (r_lat r) && truthy_value (r_lng r)); simpl in *.
    + destruct (rt r) as [f|] eqn:Hrt; simpl; [|done].
      rewrite bool_decide_eq_true_2 in Hf by eauto. rewrite andb_true_r in Hf.
      by destruct (r_dest r) as [[dest|json]|].
    + rewrite andb_true_r in Hf. by destruct (r_dest r) as [[dest|json]|].
  - intros wr q -> Hrt. by apply handle_of_query.
Qed.

End ServerRequestFacts.

Module GazetteerFacts.
Import Gazetteer.

(** X6. [mock.geoSearch]: at most eight items, in the order of the
    gazetteer, each with a name that contains the lower-cased query; a
    gazetteer of at most eight places loses no match; and the empty
    query matches every place. *)
Theorem geoSearch_capped (places : list MockPlace) (q : string) :
  let matching p := Server.occurs_in (Server.toLowerCase q) (Server.toLowerCase (name p)) in
  length (geoSearch places q) ≤ 8 ∧
  geoSearch places q `sublist_of` places ∧
  (∀ p, p ∈ geoSearch places q → p ∈ places ∧ matching p) ∧
  (length places ≤ 8 → ∀ p, p ∈ places → matching p → p ∈ geoSearch places q) ∧
  geoSearch places EmptyString = take 8 places.
Proof.
  intros matching. unfold geoSearch.
  set (f := λ p, Server.includes (Server.toLowerCase (name p)) (Server.toLowerCase q)).
  assert (∀ p, p ∈ List.filter f places ↔ p ∈ places ∧ matching p) as Hf.
  { intros p. rewrite list_elem_of_In, filter_In, <- list_elem_of_In.
    unfold f, matching. by rewrite ServerFacts.includes_spec. }
  split; [|split; [|split; [|split]]].
  - rewrite length_take. lia.
  - etrans; [apply sublist_take|apply ServerRoutesFacts.List_filter_sublist].
  - intros p Hp. apply Hf. by eapply subseteq_take.
  - intros Hlen p Hp Hm. rewrite take_ge; [by apply Hf|].
    pose proof (sublist_length _ _ (ServerRoutesFacts.List_filter_sublist f places)). lia.
  - f_equal. apply ServerFacts.filter_all, Forall_forall. intros p _.
    apply ServerFacts.includes_empty.
Qed.
End GazetteerFacts.

Module WireFacts.
Import JSNum Client Wire.

Lemma mapBackendParking_to_wire now p :
  mapBackendParking now (to_wire p) = normal_form now p.
Proof. reflexivity. Qed.

(** X7. [api.parkingByDest] against the service: each item is the
    record the service sends, with the service's [available] as
    [available_spots], no price and the time of the call as
    [updated_at]. *)
Theorem parkingByDest_normalised wr now dest :
  parkingByDest wr now dest =
  normal_form now <$>
    Server.get_parking wr {| Server.q_dest := Some dest; Server.q_lat := None;
                             Server.q_lng := None; Server.q_radius := None |}.
Proof.
  unfold parkingByDest. rewrite <- list_fmap_compose. apply list_fmap_ext.
  intros i p _. apply mapBackendParking_to_wire.
Qed.

(** [available_spots] of a normalised lot is never [null] or [undefined]. *)
Lemma mapBackendParking_never_nullish now p :
  ¬ is_nullish (available_spots (mapBackendParking now p)).
Proof.
  unfold mapBackendParking. simpl.
  destruct (get p "available_spots") eqn:Hs; simpl;
    try (destruct (get p "available") eqn:Ha; simpl); intros [H|H]; discriminate.
Qed.
End WireFacts.

Module GeoBoundsFacts.
Import Geo.
Local Open Scope R_scope.

(** X8. No two points are further apart than half the circumference of
    the sphere, whatever their coordinates. *)
Theorem distanceMeters_at_most_half_circumference a b :
  distanceMeters a b <= PI * R_earth.
Proof.
  unfold distanceMeters, R_earth.
  pose proof (asin_bound (sqrt (hav a b))) as [_ Hub]. lra.
Qed.


End GeoBoundsFacts.

Module MapClickFacts.
Import Mock MapClick.

(** X10. A click on the map picks nothing when no lot is cached;
    otherwise it picks a cached lot at the least distance from the
    click, the first such lot in the order of the cache. *)
Theorem nearest_on_click_closest target (cached : list Lot) :
  let d p := Geo.distanceMeters target (pos p) in
  (cached = [] → nearest_on_click target cached = None) ∧
  (cached ≠ [] →
     ∃ node l1 l2,
       nearest_on_click target cached = Some (node, d node) ∧
       cached = l1 ++ node :: l2 ∧
       (∀ x, x ∈ l1 → (d node < d x)%R) ∧
       (∀ x, x ∈ l2 → (d node <= d x)%R)).
Proof.
  intros d. split; [by intros ->|].
  assert (∀ l : list Lot, l ≠ [] →
            ∃ node l1 l2,
              foldl (closer target) None l = Some (node, d node) ∧
              l = l1 ++ node :: l2 ∧
              (∀ x, x ∈ l1 → (d node < d x)%R) ∧
              (∀ x, x ∈ l2 → (d node <= d x)%R)) as Hfold.
  { induction l as [|x l IH] using rev_ind; [done|]. intros _.
    rewrite foldl_app. simpl.
    destruct l as [|y l'] eqn:Hl.
    - simpl. exists x, [], []. repeat split; try done; intros z Hz; by apply elem_of_nil in Hz.
    - rewrite <- Hl in *. destruct IH as (n & l1 & l2 & Hf & Heq & H1 & H2); [by rewrite Hl|].
      rewrite Hf. unfold closer. simpl. fold (d x).
      destruct (decide (d x < d n)%R) as [Hlt|Hge].
      + exists x, l, []. split; [done|]. split; [done|]. split.
        * intros z Hz. rewrite Heq in Hz.
          apply elem_of_app in Hz as [Hz|Hz].
          -- specialize (H1 z Hz). lra.
          -- apply elem_of_cons in Hz as [->|Hz]; [done|]. specialize (H2 z Hz). lra.
        * intros z Hz. by apply elem_of_nil in Hz.
      + exists n, l1, (l2 ++ [x]). split; [done|]. split.
        * rewrite Heq. by rewrite <- app_assoc.
        * split; [done|]. intros z Hz. apply elem_of_app in Hz as [Hz|Hz]; [by apply H2|].
          apply list_elem_of_singleton in Hz as ->. lra. }
  intros Hne. unfold nearest_on_click. destruct cached; [done|]. by apply Hfold.
Qed.
End MapClickFacts.

Module EnvSuggestionsFacts.
Import Mock Resolve EnvSuggestions.

Lemma nearest_is_min (lots : list View) :
  lots ≠ [] →
  ∃ n, nearest lots = Some n ∧ n ∈ lots ∧
       ∀ v, v ∈ lots → (distance_m n <= distance_m v)%R.
Proof.
  intros Hne. unfold nearest.
  pose proof (MockFacts.Array_sort_perm distance_m lots) as Hp.
  pose proof (MockFacts.Array_sort_sorted distance_m lots) as Hs.
  unfold by_key in *.
  destruct (Array_sort _ lots) as [|n sorted] eqn:Hsort.
  - apply Permutation_nil in Hp. done.
  - exists n. split; [done|]. split.
    + rewrite <- Hp. left.
    + intros v Hv. rewrite <- Hp in Hv. apply StronglySorted_inv in Hs as [_ Hall].
      apply elem_of_cons in Hv as [->|Hv]; [lra|].
      rewrite Forall_forall in Hall. by apply Hall.
Qed.

(** X11. [renderEnvSuggestions] never fails and always offers public
    transport. Without lots it offers only that; otherwise the cards are
    chosen by the distance of the nearest lot: at most 1200 m, at most
    5000 m, or more. *)
Theorem renderEnvSuggestions_buckets (lots : list View) :
  ∃ cards,
    renderEnvSuggestions lots = Some cards ∧
    (∃ c, c ∈ cards ∧ title c = "Public transport") ∧
    (lots = [] → cards = [card_no_lots]) ∧
    ((∃ v, v ∈ lots ∧ (distance_m v <= 1200)%R) → cards = cards_short) ∧
    (lots ≠ [] → (∀ v, v ∈ lots → (1200 < distance_m v)%R) →
       (∃ v, v ∈ lots ∧ (distance_m v <= 5000)%R) → cards = cards_medium) ∧
    (lots ≠ [] → (∀ v, v ∈ lots → (5000 < distance_m v)%R) → cards = cards_long).
Proof.
  destruct lots as [|v0 lots'] eqn:Hl.
  - exists [card_no_lots]. simpl. split; [done|]. split.
    + exists card_no_lots. split; [left|done].
    + split; [done|]. split; [|split]; try done.
      intros (v & Hv & _). by apply elem_of_nil in Hv.
  - rewrite <- Hl. assert (lots ≠ []) as Hne by (by rewrite Hl).
    destruct (nearest_is_min lots Hne) as (n & Hn & Hin & Hmin).
    assert (renderEnvSuggestions lots =
            let km := (distance_m n / 1000)%R in
            if decide (km <= 1.2)%R then Some cards_short
            else if decide (km <= 5)%R then Some cards_medium else Some cards_long) as Hr.
    { rewrite Hl. simpl. rewrite <- Hl. by rewrite Hn. }
    rewrite Hr. simpl.
    destruct (decide (distance_m n / 1000 <= 1.2)%R) as [H1|H1];
      [|destruct (decide (distance_m n / 1000 <= 5)%R) as [H5|H5]];
      eexists; (split; [reflexivity|]).
    + split; [exists (List.nth 2 cards_short card_no_lots); split; [right; right; left|done]|].
      split; [by rewrite Hl|]. split; [done|]. split.
      * intros _ Hfar _. specialize (Hfar n Hin). lra.
      * intros _ Hfar. specialize (Hfar n Hin). lra.
    + split; [exists (List.nth 1 cards_medium card_no_lots); split; [right; left|done]|].
      split; [by rewrite Hl|]. split; [|split; [done|]].
      * intros (v & Hv & Hd). specialize (Hmin v Hv). lra.
      * intros _ Hfar. specialize (Hfar n Hin). lra.
    + split; [exists (List.nth 0 cards_long card_no_lots); split; [left|done]|].
      split; [by rewrite Hl|]. split; [|split; [|done]].
      * intros (v & Hv & Hd). specialize (Hmin v Hv). lra.
      * intros _ _ (v & Hv & Hd). specialize (Hmin v Hv). lra.
Qed.
End EnvSuggestionsFacts.

Module MockStoreFacts.
Import Mock MockFacts.

Lemma updated_moves E k l :
  random_in_range E → in_range l →
  (Z.abs (available_spots (updated E k l) - available_spots l) ≤ 4)%Z.
Proof.
  intros HE Hl. destruct (HE k) as [H0 H1].
  pose proof (delta_of_bounds _ H0 H1). unfold in_range in Hl.
  unfold updated. simpl. lia.
Qed.

Lemma loop_moved E ids : ∀ lots k changes changes' lots' k',
  random_in_range E → NoDup ids → Forall in_range lots →
  pushUpdates_loop E ids lots k changes = Some (changes', lots', k') →
  Forall2 (moved ids) lots lots'.
Proof.
  induction ids as [|i ids IH]; intros lots k changes changes' lots' k' HE Hnd Hinv Hrun.
  { simplify_eq/=. apply Forall2_same_length_lookup_2; [done|].
    intros j x y ? ?. simplify_eq. repeat split; try done. by rewrite Z.sub_diag. }
  apply NoDup_cons in Hnd as [Hi Hnd].
  destruct (findIndex i lots) as [n|] eqn:Hf.
  - destruct (findIndex_Some _ _ _ Hf) as (l & Hn & Hid).
    rewrite (loop_cons_found _ _ _ _ _ _ _ _ Hf Hn) in Hrun.
    assert (in_range l) as Hl by (by eapply Forall_lookup_1).
    assert (Forall in_range (<[n:=updated E k l]> lots)) as Hinv'.
    { apply Forall_insert; [done|]. apply updated_in_range. unfold in_range in Hl. lia. }
    apply (IH _ _ _ _ _ _ HE Hnd Hinv') in Hrun.
    apply Forall2_same_length_lookup_2.
    { apply Forall2_length in Hrun. by rewrite length_insert in Hrun. }
    intros j x y Hx Hy.
    destruct (decide (j = n)) as [->|Hne].
    + assert (x = l) as -> by congruence.
      assert (<[n:=updated E k l]> lots !! n = Some (updated E k l)) as Hu.
      { apply list_lookup_insert_eq. by eapply lookup_lt_Some. }
      destruct (Forall2_lookup_lr _ _ _ _ _ _ Hrun Hu Hy) as (Hi' & _ & Hsame).
      assert (y = updated E k l) as ->.
      { apply Hsame. simpl. by rewrite Hid. }
      split; [done|]. split; [by apply updated_moves|].
      intros Hni. exfalso. apply Hni. rewrite Hid. left.
    + assert (<[n:=updated E k l]> lots !! j = Some x) as Hu.
      { by rewrite list_lookup_insert_ne. }
      destruct (Forall2_lookup_lr _ _ _ _ _ _ Hrun Hu Hy) as (Hi' & Hab & Hsame).
      split; [done|]. split; [done|].
      intros Hni. apply Hsame. intros Hin. apply Hni. by right.
  - rewrite (loop_cons_missing _ _ _ _ _ _ Hf) in Hrun.
    apply (IH _ _ _ _ _ _ HE Hnd Hinv) in Hrun. eapply Forall2_impl; [done|].
    intros x y (Hi' & Hab & Hsame). split; [done|]. split; [done|].
    intros Hni. apply Hsame. intros Hin. apply Hni. by right.
Qed.

(** X12. One call of [pushUpdates] with distinct ids moves the count of
    each lot by at most four spots, keeps the lots in their places, and
    leaves the lots that are not listed as they were. *)
Theorem pushUpdates_moves_at_most_four E ids (lots : list Lot) :
  random_in_range E → NoDup ids → Forall in_range lots →
  ∃ changes lots',
    pushUpdates E ids lots = Some (changes, lots') ∧
    Forall2 (moved ids) lots lots'.
Proof.
  intros HE Hnd Hinv. unfold pushUpdates.
  destruct (loop_total E ids lots 0 []) as (changes & lots' & k' & Hrun).
  rewrite Hrun. simpl. exists changes, lots'. split; [done|].
  by eapply loop_moved.
Qed.

Lemma pushUpdates_moves_at_most_four_witness :
  let E := {| Math_random := λ k, if Nat.even k then 0%Q else 0.999%Q;
              Date_toISOString := λ _, "2025-01-01T00:00:00.000Z" |} in
  random_in_range E ∧ NoDup ["CP-101"; "CP-202"] ∧ Forall in_range (fixture "t0") ∧
  ∃ changes lots',
    pushUpdates E ["CP-101"; "CP-202"] (fixture "t0") = Some (changes, lots') ∧
    Forall2 (moved ["CP-101"; "CP-202"]) (fixture "t0") lots'.
Proof.
  intros E.
  assert (random_in_range E) as HE.
  { intros k. unfold E. simpl. destruct (Nat.even k); split; unfold Qle, Qlt; simpl; lia. }
  assert (NoDup ["CP-101"; "CP-202"]) as Hnd.
  { apply NoDup_cons. split; [|apply NoDup_singleton].
    intros H%list_elem_of_singleton. discriminate. }
  assert (Forall in_range (fixture "t0")) as Hinv.
  { unfold fixture, in_range. repeat constructor; simpl; lia. }
  exact (conj HE (conj Hnd (conj Hinv
           (pushUpdates_moves_at_most_four E _ _ HE Hnd Hinv)))).
Defined.

Lemma loop_changes_stored E ids : ∀ lots k changes changes' lots' k',
  pushUpdates_loop E ids lots k changes = Some (changes', lots', k') →
  ∃ new, changes' = changes ++ new ∧
         (NoDup ids → ∀ c, c ∈ new → c ∈ lots').
Proof.
  induction ids as [|i ids IH]; intros lots k changes changes' lots' k' Hrun.
  { simplify_eq/=. exists []. split; [by rewrite app_nil_r|].
    intros _ c Hc. by apply elem_of_nil in Hc. }
  destruct (findIndex i lots) as [n|] eqn:Hf.
  - destruct (findIndex_Some _ _ _ Hf) as (l & Hn & Hid).
    rewrite (loop_cons_found _ _ _ _ _ _ _ _ Hf Hn) in Hrun.
    pose proof (loop_framed _ _ _ _ _ _ _ _ Hrun) as Hfr.
    apply IH in Hrun as (new & -> & Hnew).
    exists (updated E k l :: new). split; [by rewrite <- app_assoc|].
    intros [Hi Hnd]%NoDup_cons c Hc.
    apply elem_of_cons in Hc as [->|Hc]; [|by apply Hnew].
    assert (<[n:=updated E k l]> lots !! n = Some (updated E k l)) as Hu.
    { apply list_lookup_insert_eq. by eapply lookup_lt_Some. }
    destruct (Forall2_lookup_l _ _ _ _ _ Hfr Hu) as (y & Hy & _ & Hsame).
    rewrite Hsame in Hy; [by eapply list_elem_of_lookup_2|].
    simpl. by rewrite Hid.
  - rewrite (loop_cons_missing _ _ _ _ _ _ Hf) in Hrun.
    apply IH in Hrun as (new & -> & Hnew). exists new. split; [done|].
    intros [_ Hnd]%NoDup_cons. by apply Hnew.
Qed.

(** X13. With distinct ids every record [pushUpdates] returns is a lot
    of the store as the call leaves it. *)
Theorem pushUpdates_returns_stored_lots E ids (lots : list Lot) :
  NoDup ids →
  ∃ changes lots',
    pushUpdates E ids lots = Some (changes, lots') ∧
    ∀ c, c ∈ changes → c ∈ lots'.
Proof.
  intros Hnd. unfold pushUpdates.
  destruct (loop_total E ids lots 0 []) as (changes & lots' & k' & Hrun).
  rewrite Hrun. simpl. exists changes, lots'. split; [done|].
  apply loop_changes_stored in Hrun as (new & -> & Hnew). by apply Hnew.
Qed.

Lemma pushUpdates_returns_stored_lots_witness :
  let E := {| Math_random := λ _, 0.75%Q; Date_toISOString := λ _, "t1" |} in
  NoDup ["CP-103"; "CP-999"; "CP-201"] ∧
  ∃ changes lots',
    pushUpdates E ["CP-103"; "CP-999"; "CP-201"] (fixture "t0") = Some (changes, lots') ∧
    ∀ c, c ∈ changes → c ∈ lots'.
Proof.
  intros E.
  assert (NoDup ["CP-103"; "CP-999"; "CP-201"]) as Hnd.
  { repeat (apply NoDup_cons; split); [| |apply not_elem_of_nil|apply NoDup_nil_2].
    - rewrite !not_elem_of_cons. repeat split; try discriminate. apply not_elem_of_nil.
    - rewrite !not_elem_of_cons. repeat split; try discriminate. apply not_elem_of_nil. }
  exact (conj Hnd (pushUpdates_returns_stored_lots E _ (fixture "t0") Hnd)).
Defined.

(** With an id listed twice the first record returned is stale. *)
Example pushUpdates_stale_record :
  let E := {| Math_random := λ _, 0%Q; Date_toISOString := λ _, "t1" |} in
  ∃ changes lots' c,
    pushUpdates E ["CP-101"; "CP-101"] (fixture "t0") = Some (changes, lots') ∧
    c ∈ changes ∧ c ∉ lots'.
Proof.
  intros E. eexists _, _, _. split; [vm_compute; reflexivity|]. split; [left|].
  intros Hin. repeat (apply elem_of_cons in Hin as [Hin|Hin]; [discriminate|]).
  by apply elem_of_nil in Hin.
Qed.

(** X14. A search centred on a lot of the store, with a radius that is
    not negative, finds that lot. *)
Theorem parkingNear_finds_lot_at_centre (lots : list Lot) (p : Lot) (radius : option R) :
  p ∈ lots → (0 <= default 900 radius)%R →
  p ∈ parkingNear lots (Q2R (lat p)) (Q2R (lng p)) radius.
Proof.
  intros Hp Hr.
  set (c := {| Geo.lat := Q2R (lat p); Geo.lng := Q2R (lng p) |}).
  assert (p ∈ filter (λ q, (haversine c (pos q) <= default 900 radius)%R) lots) as Hin.
  { apply list_elem_of_filter. split; [|done].
    change (pos p) with c. rewrite haversine_diag. done. }
  rewrite parkingNear_nonempty; [done|].
  intros Hnil. fold c in Hnil. rewrite Hnil in Hin. by apply elem_of_nil in Hin.
Qed.

Lemma parkingNear_finds_lot_at_centre_witness :
  let p := {| id := "CP-201"; name := "Derby Rd Car Park"; lat := -37.8779;
              lng := 145.0449; capacity := 180; available_spots := 61;
              price := Some "$3/hr"; updated_at := "t0" |} in
  p ∈ fixture "t0" ∧ (0 <= default 900 (Some 0))%R ∧
  p ∈ parkingNear (fixture "t0") (Q2R (lat p)) (Q2R (lng p)) (Some 0%R).
Proof.
  intros p.
  assert (p ∈ fixture "t0") as Hp.
  { unfold fixture. do 3 right. left. }
  assert (0 <= default 900 (Some 0))%R as Hr by (simpl; lra).
  exact (conj Hp (conj Hr (parkingNear_finds_lot_at_centre _ p (Some 0%R) Hp Hr))).
Defined.

(** X15. When some lot is within the smaller radius, a larger radius
    loses none of the lots found, and both results keep the order of
    the store. *)
Theorem parkingNear_wider_radius (lots : list Lot) (lat lng r1 r2 : R) :
  (r1 <= r2)%R →
  filter (λ p, (haversine {| Geo.lat := lat; Geo.lng := lng |} (pos p) <= r1)%R) lots ≠ [] →
  parkingNear lots lat lng (Some r1) `sublist_of` parkingNear lots lat lng (Some r2) ∧
  parkingNear lots lat lng (Some r2) `sublist_of` lots.
Proof.
  intros Hr Hne.
  set (c := {| Geo.lat := lat; Geo.lng := lng |}) in *.
  assert (filter (λ p, (haversine c (pos p) <= r1)%R) lots
          `sublist_of` filter (λ p, (haversine c (pos p) <= r2)%R) lots) as Hsub.
  { clear Hne. induction lots as [|p lots IH]; [done|].
    destruct (decide (haversine c (pos p) <= r1)%R) as [H1|H1].
    - rewrite !filter_cons_True by (simpl; lra). by constructor.
    - rewrite (filter_cons_False (λ p, (haversine c (pos p) <= r1)%R)) by done.
      destruct (decide (haversine c (pos p) <= r2)%R) as [H2|H2].
      + rewrite filter_cons_True by done. by constructor.
      + by rewrite filter_cons_False. }
  assert (filter (λ p, (haversine c (pos p) <= r2)%R) lots ≠ []) as Hne2.
  { intros Hnil. rewrite Hnil in Hsub. by apply sublist_nil_r in Hsub. }
  rewrite !parkingNear_nonempty by done. simpl. fold c.
  split; [done|apply sublist_filter].
Qed.

Lemma parkingNear_wider_radius_witness :
  let lat := Q2R (-37.8173) in
  let lng := Q2R 144.9655 in
  (0 <= 900)%R ∧
  filter (λ p, (haversine {| Geo.lat := lat; Geo.lng := lng |} (pos p) <= 0)%R)
         (fixture "t0") ≠ [] ∧
  parkingNear (fixture "t0") lat lng (Some 0%R)
    `sublist_of` parkingNear (fixture "t0") lat lng (Some 900%R) ∧
  parkingNear (fixture "t0") lat lng (Some 900%R) `sublist_of` fixture "t0".
Proof.
  intros lat lng.
  assert (0 <= 900)%R as Hr by lra.
  assert (filter (λ p, (haversine {| Geo.lat := lat; Geo.lng := lng |} (pos p) <= 0)%R)
                 (fixture "t0") ≠ []) as Hne.
  { unfold fixture. rewrite filter_cons_True; [discriminate|].
    unfold pos. simpl. rewrite haversine_diag. lra. }
  exact (conj Hr (conj Hne (parkingNear_wider_radius (fixture "t0") lat lng 0 900 Hr Hne))).
Defined.
End MockStoreFacts.

Module MockResolveFacts.
Import Mock Resolve MockResolve MockFacts.

Lemma resolve_mock_page store pg place :
  let items := fetch_mock store place in
  let pg' := resolve_mock store pg place in
  shown pg' = enrich place items ∧
  statusEl pg' = match items with
                 | [] => NoCarParks
                 | _ => Showing (length items) (place_name place)
                 end ∧
  currentDestination pg' = Some place ∧ searchBox pg' = place_name place.
Proof.
  unfold resolve_mock, run. simpl. rewrite lookup_insert_eq. simpl. done.
Qed.

Lemma fetch_mock_cases (store : list Lot) place :
  let c := place_pos place in
  let within := filter (λ p, (haversine c (pos p) <= 900)%R) store in
  (within ≠ [] ∧ fetch_mock store place = within) ∨
  (within = [] ∧ length (fetch_mock store place) = min 3 (length store) ∧
   nearest_of c store (fetch_mock store place)).
Proof.
  intros c within. unfold fetch_mock.
  destruct (decide (within = [])) as [Hnil|Hne].
  - right. split; [done|]. rewrite parkingNear_empty by exact Hnil. apply nearest_three.
  - left. split; [done|]. by apply parkingNear_nonempty.
Qed.

(** X16. Against the in-memory data source with a store that is not
    empty, a resolve never ends on [No car parks found]: it shows between
    one lot and all of them, each a lot of the store with its distance;
    all within 900 m when some lot is, else the three nearest. *)
Theorem resolve_mock_never_empty (store : list Lot) (pg : Page) (place : Place) :
  store ≠ [] →
  let pg' := resolve_mock store pg place in
  let within := filter (λ p, (haversine (place_pos place) (pos p) <= 900)%R) store in
  ∃ n, 1 ≤ n ≤ length store ∧
       statusEl pg' = Showing n (place_name place) ∧
       length (shown pg') = n ∧
       (∀ v, v ∈ shown pg' → lot v ∈ store ∧ (0 <= distance_m v)%R) ∧
       (within ≠ [] → ∀ v, v ∈ shown pg' → (distance_m v <= 900)%R) ∧
       (within = [] → n = min 3 (length store)).
Proof.
  intros Hstore pg' within.
  destruct (resolve_mock_page store pg place) as (Hshown & Hstatus & _ & _).
  fold pg' in Hshown, Hstatus.
  pose proof (fetch_mock_cases store place) as Hcases. cbv zeta in Hcases.
  fold within in Hcases.
  set (items := fetch_mock store place) in *.
  assert (∀ v, v ∈ shown pg' →
            lot v ∈ items ∧ distance_m v = haversine (place_pos place) (pos (lot v))) as Hv.
  { intros v Hin. rewrite Hshown in Hin. unfold enrich in Hin.
    apply list_elem_of_fmap in Hin as (it & -> & Hit). done. }
  assert (length (shown pg') = length items) as Hlen.
  { rewrite Hshown. unfold enrich. by rewrite length_fmap. }
  destruct Hcases as [[Hne Heq] | (Hnil & Hn & rest & Hperm & _)].
  - exists (length items).
    assert (items `sublist_of` store) as Hsub by (rewrite Heq; apply sublist_filter).
    assert (1 ≤ length items) by (destruct items; [done|simpl; lia]).
    pose proof (sublist_length _ _ Hsub).
    split; [lia|]. split; [by destruct items|]. split; [done|]. split; [|split].
    + intros v Hin. destruct (Hv v Hin) as [Hit ->]. split.
      * rewrite Heq in Hit. by apply list_elem_of_filter in Hit as [_ ?].
      * apply haversine_nonneg.
    + intros _ v Hin. destruct (Hv v Hin) as [Hit ->].
      rewrite Heq in Hit. by apply list_elem_of_filter in Hit as [? _].
    + done.
  - exists (length items).
    assert (1 ≤ length items ≤ length store).
    { rewrite Hn. destruct store; [done|]. simpl length. lia. }
    split; [done|]. split; [destruct items; [simpl in *; lia|done]|].
    split; [done|]. split; [|split].
    + intros v Hin. destruct (Hv v Hin) as [Hit ->]. split; [|apply haversine_nonneg].
      rewrite <- Hperm. apply elem_of_app. by left.
    + done.
    + done.
Qed.

Lemma resolve_mock_never_empty_witness :
  let pg' := resolve_mock (fixture "t0") initial southgate in
  fixture "t0" ≠ [] ∧
  ∃ n, 1 ≤ n ≤ 5 ∧ statusEl pg' = Showing n "Southgate" ∧ length (shown pg') = n.
Proof.
  intros pg'.
  assert (fixture "t0" ≠ []) as Hne by discriminate.
  destruct (resolve_mock_never_empty (fixture "t0") initial southgate Hne)
    as (n & Hn & Hst & Hlen & _).
  exact (conj Hne (ex_intro _ n (conj Hn (conj Hst Hlen)))).
Defined.
End MockResolveFacts.

Module FeedFacts.
Import Mock Resolve Feed MockFacts MockStoreFacts.

Lemma redraw_marker_map u (ms : Markers) :
  NoDup (fst <$> ms) → redraw_marker u ms = redraw_entry u <$> ms.
Proof.
  induction ms as [|[k m] ms IH]; intros Hnd; [done|].
  rewrite fmap_cons in Hnd. apply NoDup_cons in Hnd as [Hk Hnd]. simpl.
  unfold redraw_entry at 1. simpl. destruct (decide (k = id u)) as [->|Hne].
  - f_equal. clear IH. induction ms as [|[k' m'] ms IH]; [done|].
    simpl in *. apply not_elem_of_cons in Hk as [Hk1 Hk2].
    apply NoDup_cons in Hnd as [_ Hnd].
    unfold redraw_entry at 1. simpl. rewrite decide_False by done.
    f_equal. by apply IH.
  - f_equal. by apply IH.
Qed.

Lemma redraw_entry_key u e : (redraw_entry u e).1 = e.1.
Proof. unfold redraw_entry. by destruct (decide _). Qed.

Lemma redraw_marker_keys u (ms : Markers) : fst <$> redraw_marker u ms = fst <$> ms.
Proof.
  induction ms as [|[k m] ms IH]; [done|]. cbn [redraw_marker].
  destruct (decide (k = id u)); rewrite !fmap_cons; [done|]. by rewrite IH.
Qed.

Lemma redraw_card_name u c : card_name (redraw_card u c) = card_name c.
Proof. unfold redraw_card. by destruct (decide _). Qed.

Lemma redraw_unfold updates : ∀ (ms : Markers) (cards : list Card),
  redraw updates ms cards =
  (foldl (λ ms u, redraw_marker u ms) ms updates,
   (λ c, foldl (λ c u, redraw_card u c) c updates) <$> cards).
Proof.
  unfold redraw. induction updates as [|u updates IH]; intros ms cards; simpl.
  - by rewrite list_fmap_id.
  - rewrite IH. f_equal. by rewrite <- list_fmap_compose.
Qed.

Lemma fold_markers_keys updates : ∀ ms : Markers,
  fst <$> foldl (λ ms u, redraw_marker u ms) ms updates = fst <$> ms.
Proof.
  induction updates as [|u updates IH]; intros ms; simpl; [done|].
  by rewrite IH, redraw_marker_keys.
Qed.

Lemma fold_markers_map updates : ∀ ms : Markers,
  NoDup (fst <$> ms) →
  foldl (λ ms u, redraw_marker u ms) ms updates
  = (λ e, foldl (λ e u, redraw_entry u e) e updates) <$> ms.
Proof.
  induction updates as [|u updates IH]; intros ms Hnd; simpl.
  - by rewrite list_fmap_id.
  - rewrite IH by (by rewrite redraw_marker_keys).
    rewrite redraw_marker_map by done. by rewrite <- list_fmap_compose.
Qed.

Lemma fold_card_name updates c :
  card_name (foldl (λ c u, redraw_card u c) c updates) = card_name c.
Proof.
  revert c. induction updates as [|u updates IH]; intros c; simpl; [done|].
  by rewrite IH, redraw_card_name.
Qed.

Lemma redraw_card_hit u c :
  card_name c = name u →
  redraw_card u c =
  {| card_name := card_name c; card_available := available_spots u;
     card_capacity := capacity u; card_red := (available_spots u =? 0)%Z;
     card_distance := card_distance c; card_price := card_price c |}.
Proof. intros H. unfold redraw_card. by rewrite decide_True. Qed.

Lemma redraw_card_miss u c : card_name c ≠ name u → redraw_card u c = c.
Proof. intros H. unfold redraw_card. by rewrite decide_False. Qed.

Lemma fold_card_static updates c :
  let c' := foldl (λ c u, redraw_card u c) c updates in
  card_name c' = card_name c ∧ card_distance c' = card_distance c ∧
  card_price c' = card_price c ∧
  (card_name c ∉ name <$> updates → c' = c).
Proof.
  induction updates as [|x updates IH] using rev_ind; [done|].
  cbv zeta in *. rewrite foldl_app. cbn [foldl].
  destruct IH as (Hn & Hd & Hp & Hsame).
  destruct (decide (card_name c = name x)) as [Heq|Hne].
  - rewrite redraw_card_hit by congruence. cbn.
    repeat split; try done. intros Hni. exfalso. apply Hni.
    rewrite fmap_app. apply elem_of_app. right. rewrite Heq. left.
  - rewrite redraw_card_miss by congruence.
    repeat split; try done. intros Hni. apply Hsame.
    intros Hin. apply Hni. rewrite fmap_app. apply elem_of_app. by left.
Qed.

Lemma fold_card_last updates c :
  card_name c ∈ name <$> updates →
  ∃ u, u ∈ updates ∧ name u = card_name c ∧
       let c' := foldl (λ c u, redraw_card u c) c updates in
       card_available c' = available_spots u ∧ card_capacity c' = capacity u ∧
       card_red c' = (available_spots u =? 0)%Z.
Proof.
  induction updates as [|x updates IH] using rev_ind; [by intros ?%elem_of_nil|].
  intros Hin. rewrite foldl_app. cbn [foldl].
  destruct (decide (card_name c = name x)) as [Heq|Hne].
  - exists x. split; [apply elem_of_app; right; left|]. split; [done|].
    rewrite redraw_card_hit by (by rewrite fold_card_name). done.
  - rewrite redraw_card_miss by (by rewrite fold_card_name).
    rewrite fmap_app in Hin. apply elem_of_app in Hin as [Hin|Hin].
    + destruct (IH Hin) as (u & Hu & Hname & Hval). exists u.
      split; [apply elem_of_app; by left|]. done.
    + simpl in Hin. apply list_elem_of_singleton in Hin. done.
Qed.

Lemma redraw_entry_hit u (e : string * Popup) :
  e.1 = id u → redraw_entry u e = (e.1, popupHtml u).
Proof. intros H. unfold redraw_entry. by rewrite decide_True. Qed.

Lemma redraw_entry_miss u (e : string * Popup) : e.1 ≠ id u → redraw_entry u e = e.
Proof. intros H. unfold redraw_entry. by rewrite decide_False. Qed.

Lemma fold_entry_last updates (e : string * Popup) :
  let e' := foldl (λ e u, redraw_entry u e) e updates in
  e'.1 = e.1 ∧
  (e.1 ∈ id <$> updates → ∃ u, u ∈ updates ∧ id u = e.1 ∧ e'.2 = popupHtml u) ∧
  (e.1 ∉ id <$> updates → e' = e).
Proof.
  induction updates as [|x updates IH] using rev_ind.
  { cbn. split; [done|]. split; [by intros ?%elem_of_nil|done]. }
  cbv zeta in *. rewrite foldl_app. cbn [foldl]. destruct IH as (Hk & Hin & Hout).
  rewrite fmap_app.
  destruct (decide (e.1 = id x)) as [Heq|Hne].
  - rewrite redraw_entry_hit by congruence. cbn [fst snd]. split; [done|]. split.
    + intros _. exists x. split; [apply elem_of_app; right; left|done].
    + intros Hni. exfalso. apply Hni. apply elem_of_app. right.
      rewrite Heq. left.
  - rewrite redraw_entry_miss by congruence. split; [done|]. split.
    + intros [H|H]%elem_of_app.
      * destruct (Hin H) as (u & Hu & ? & ?). exists u.
        split; [apply elem_of_app; by left|done].
      * apply list_elem_of_singleton in H. done.
    + intros Hni. apply Hout. intros H. apply Hni. apply elem_of_app. by left.
Qed.

Lemma upsertMarker_keys p (ms : Markers) :
  fst <$> upsertMarker p ms =
  if decide (id p ∈ fst <$> ms) then fst <$> ms else (fst <$> ms) ++ [id p].
Proof.
  induction ms as [|[k m] ms IH]; [done|]. cbn [upsertMarker].
  destruct (decide (k = id p)) as [->|Hne]; rewrite !fmap_cons; cbn [fst].
  - rewrite decide_True; [done|left].
  - rewrite IH. destruct (decide (id p ∈ fst <$> ms)) as [Hin|Hni].
    + rewrite decide_True; [done|by right].
    + rewrite decide_False; [done|]. intros [?|?]%elem_of_cons; done.
Qed.

Lemma draw_keys (items : list View) :
  let keys := fst <$> (draw items).1 in
  NoDup keys ∧ ∀ k, k ∈ keys ↔ k ∈ (λ v, id (lot v)) <$> items.
Proof.
  unfold draw. cbn [fst].
  induction items as [|v items IH] using rev_ind.
  { cbn. split; [constructor|done]. }
  cbv zeta in *. rewrite foldl_app. cbn [foldl]. destruct IH as [Hnd Hiff].
  rewrite upsertMarker_keys, fmap_app. cbn [fmap list_fmap].
  destruct (decide (id (lot v) ∈ _)) as [Hin|Hni].
  - split; [done|]. intros k. rewrite elem_of_app, <- Hiff, list_elem_of_singleton.
    split; [by left|]. intros [?| ->]; done.
  - split.
    + apply NoDup_app. split; [done|]. split; [|apply NoDup_singleton].
      intros k Hk ->%list_elem_of_singleton. done.
    + intros k. rewrite !elem_of_app, <- Hiff. done.
Qed.

(** X17. The feed's redraw adds and removes neither markers nor cards;
    a card keeps its heading, distance and price, and is untouched when
    no update carries its name. *)
Theorem redraw_keeps_cards (updates : list Lot) (ms : Markers) (cards : list Card) :
  let r := redraw updates ms cards in
  fst <$> r.1 = fst <$> ms ∧
  length r.2 = length cards ∧
  Forall2 (card_kept updates) cards r.2.
Proof.
  cbv zeta. rewrite redraw_unfold. cbn [fst snd].
  split; [apply fold_markers_keys|]. split; [by rewrite length_fmap|].
  apply Forall2_fmap_r, Forall_Forall2_diag, Forall_forall. intros c _.
  apply fold_card_static.
Qed.

Lemma NoDup_fmap_eq {A B} (f : A → B) (l : list A) x y :
  NoDup (f <$> l) → x ∈ l → y ∈ l → f x = f y → x = y.
Proof.
  induction l as [|z l IH]; [by intros _ ?%elem_of_nil|].
  rewrite fmap_cons. intros [Hz Hnd]%NoDup_cons Hx Hy Heq.
  apply elem_of_cons in Hx as [->|Hx]; apply elem_of_cons in Hy as [->|Hy]; try done.
  - exfalso. apply Hz. rewrite Heq. apply list_elem_of_fmap. eauto.
  - exfalso. apply Hz. rewrite <- Heq. apply list_elem_of_fmap. eauto.
  - by apply IH.
Qed.

Lemma filter_all_in (P : string → Prop) `{∀ x, Decision (P x)} (l : list string) :
  (∀ x, x ∈ l → P x) → filter P l = l.
Proof.
  induction l as [|x l IH]; intros Hall; [done|].
  rewrite filter_cons_True by (apply Hall; left). f_equal. apply IH.
  intros y Hy. apply Hall. by right.
Qed.

Lemma framed_names ids (store store' : list Lot) :
  Forall2 (framed ids) store store' →
  name <$> store' = name <$> store ∧ id <$> store' = id <$> store.
Proof.
  induction 1 as [|l l' store store' [(Hi & Hn & _) _] _ [IH1 IH2]]; [done|].
  rewrite !fmap_cons. by rewrite Hi, Hn, IH1, IH2.
Qed.

(** X18. After one firing of the feed on a freshly drawn page, every
    card and every popup shows the counts the store now holds for its
    lot, as long as ids and names are unique in the store. *)
Theorem tick_shows_the_store (E : Env) (store : list Lot) (items : list View) :
  NoDup (id <$> store) → NoDup (name <$> store) →
  (∀ v, v ∈ items → ∃ l, l ∈ store ∧ id l = id (lot v) ∧ name l = name (lot v)) →
  ∃ store' ms' cards',
    tick E store (draw items).1 (draw items).2 = Some (store', ms', cards') ∧
    Forall2 (λ v c, ∃ l, l ∈ store' ∧ id l = id (lot v) ∧ card_shows l c) items cards' ∧
    (∀ k m, (k, m) ∈ ms' → ∃ l, l ∈ store' ∧ id l = k ∧ m = popupHtml l).
Proof.
  intros Hids Hnames Hitems.
  destruct (draw_keys items) as [Hknd Hkin].
  set (ms := (draw items).1) in *. set (keys := fst <$> ms) in *.
  unfold tick, pushUpdates. fold keys.
  destruct (loop_total E keys store 0 []) as (changes & store' & k' & Hrun).
  rewrite Hrun. cbn [mbind option_bind fst snd].
  pose proof (loop_framed _ _ _ _ _ _ _ _ Hrun) as Hfr.
  destruct (framed_names _ _ _ Hfr) as [Hn' Hi'].
  pose proof (loop_changes_stored _ _ _ _ _ _ _ _ Hrun) as (new & Hnew & Hstored).
  simpl in Hnew. subst new. specialize (Hstored Hknd).
  apply loop_ids in Hrun as [_ Hcids]. simpl in Hcids.
  assert (∀ k, k ∈ keys → k ∈ id <$> store) as Hkstore.
  { intros k Hk. apply Hkin in Hk. apply list_elem_of_fmap in Hk as (v & -> & Hv).
    destruct (Hitems v Hv) as (l & Hl & <- & _). apply list_elem_of_fmap. eauto. }
  rewrite filter_all_in in Hcids by done.
  assert (∀ v, v ∈ items →
            ∃ u, u ∈ changes ∧ id u = id (lot v) ∧ name u = name (lot v)) as Hchange.
  { intros v Hv.
    assert (id (lot v) ∈ id <$> changes) as Hin.
    { rewrite Hcids. apply Hkin. apply list_elem_of_fmap. eauto. }
    apply list_elem_of_fmap in Hin as (u & Hid & Hu). exists u. split; [done|].
    split; [done|].
    destruct (Hitems v Hv) as (l & Hl & Hlid & Hlname).
    apply list_elem_of_lookup in Hl as [j Hj].
    destruct (Forall2_lookup_l _ _ _ _ _ Hfr Hj) as (l' & Hj' & (Hi2 & Hn2 & _) & _).
    assert (u = l') as ->; [|congruence].
    apply (NoDup_fmap_eq id store'); [by rewrite Hi'|by apply Hstored|
      by eapply list_elem_of_lookup_2|congruence]. }
  eexists _, _, _. split; [reflexivity|].
  rewrite redraw_unfold. cbn [fst snd]. split.
  - unfold draw. cbn [snd]. apply Forall2_fmap_r, Forall2_fmap_r.
    apply Forall_Forall2_diag, Forall_forall. intros v Hv.
    destruct (Hchange v Hv) as (u & Hu & Huid & Huname).
    destruct (fold_card_last changes (lotCard v)) as (u' & Hu' & Hname' & Ha & Hc & Hr).
    { cbn. rewrite <- Huname. apply list_elem_of_fmap. eauto. }
    assert (u' = u) as ->.
    { apply (NoDup_fmap_eq name store'); [by rewrite Hn'|by apply Hstored..|].
      rewrite Hname'. cbn. done. }
    exists u. split; [by apply Hstored|]. split; [done|].
    unfold card_shows. rewrite fold_card_name, Ha, Hc, Hr. cbn. done.
  - intros k m Hin. rewrite fold_markers_map in Hin by done.
    apply list_elem_of_fmap in Hin as (e & Heq & He).
    destruct (fold_entry_last changes e) as (Hk & Hlast & _).
    assert (e.1 ∈ id <$> changes) as Hec.
    { rewrite Hcids. apply list_elem_of_fmap. eauto. }
    destruct (Hlast Hec) as (u & Hu & Huid & Hpop).
    exists u. split; [by apply Hstored|].
    rewrite <- Heq in Hk, Hpop. cbn in Hk, Hpop. split; congruence.
Qed.

Lemma tick_shows_the_store_witness :
  let E := {| Math_random := λ _, 0.1%Q; Date_toISOString := λ _, "t1" |} in
  let items := enrich southgate (take 2 (fixture "t0")) in
  NoDup (id <$> fixture "t0") ∧ NoDup (name <$> fixture "t0") ∧
  ∃ store' ms' cards',
    tick E (fixture "t0") (draw items).1 (draw items).2 = Some (store', ms', cards') ∧
    Forall2 (λ v c, ∃ l, l ∈ store' ∧ id l = id (lot v) ∧ card_shows l c) items cards' ∧
    (∀ k m, (k, m) ∈ ms' → ∃ l, l ∈ store' ∧ id l = k ∧ m = popupHtml l).
Proof.
  intros E items.
  assert (NoDup (id <$> fixture "t0")) as Hids.
  { apply (bool_decide_unpack _). vm_compute. reflexivity. }
  assert (NoDup (name <$> fixture "t0")) as Hnames.
  { apply (bool_decide_unpack _). vm_compute. reflexivity. }
  assert (∀ v, v ∈ items →
            ∃ l, l ∈ fixture "t0" ∧ id l = id (lot v) ∧ name l = name (lot v)) as Hitems.
  { intros v Hv. unfold items, enrich in Hv.
    apply list_elem_of_fmap in Hv as (l & -> & Hl). exists l. split; [|done].
    by eapply subseteq_take. }
  exact (conj Hids (conj Hnames (tick_shows_the_store E _ items Hids Hnames Hitems))).
Defined.

End FeedFacts.

Module DebounceFacts.
Import Debounce.

Lemma last_input_snoc trace e :
  last_input (trace ++ [e]) =
  match e with Input v => Some v | Fire _ => last_input trace end.
Proof.
  induction trace as [|x trace IH]; [by destruct e|].
  simpl. rewrite IH. destruct x, e; done.
Qed.

Lemma last_input_blank_cancels trace b v :
  settled trace b → last_input trace = Some v →
  Server.nonempty (Server.trim v) = false → timers b = ∅.
Proof.
  intros ([Hm | (i & w & _ & _ & Hl & Hq)] & _) Hv Hblank; [done|].
  congruence.
Qed.

Lemma step_settled trace b e : settled trace b → settled (trace ++ [e]) (step b e).
Proof.
  intros (Hpend & Hs & Hcount). unfold settled.
  rewrite last_input_snoc, List.filter_app, length_app.
  assert (∀ q, q ∈ searches b →
            Server.nonempty q = true ∧ ∃ v, Input v ∈ trace ++ [e] ∧ q = Server.trim v) as Hs'.
  { intros q Hq. destruct (Hs q Hq) as [Hne (v & Hv & ->)]. split; [done|].
    exists v. split; [|done]. apply elem_of_app. by left. }
  assert (clearTimeout (debounceTimer b) (timers b) = ∅) as Hclear.
  { destruct Hpend as [Hm | (i & w & Hm & Hd & _)].
    - rewrite Hm. unfold clearTimeout. destruct (debounceTimer b); [apply delete_empty|done].
    - rewrite Hm, Hd. simpl. apply delete_singleton_eq. }
  destruct e as [v|i]; simpl.
  - unfold input. rewrite Hclear.
    destruct (Server.nonempty (Server.trim v)) eqn:Hq; simpl.
    + split; [|split; [done|]].
      * right. exists (next_timer b), v. by rewrite insert_empty.
      * rewrite insert_empty, map_size_singleton. lia.
    + split; [by left|]. split; [done|]. rewrite map_size_empty. lia.
  - unfold fire. destruct (timers b !! i) as [q|] eqn:Hi; simpl.
    + destruct Hpend as [Hm | (j & w & Hm & Hd & Hl & Hq)].
      { rewrite Hm, lookup_empty in Hi. done. }
      rewrite Hm in Hi. apply lookup_singleton_Some in Hi as [-> <-].
      rewrite Hm, delete_singleton_eq. split; [by left|]. split.
      * intros q [Hq'|Hq']%elem_of_app; [by apply Hs'|].
        apply list_elem_of_singleton in Hq' as ->. split; [done|].
        exists w. split; [|done]. apply elem_of_app. left.
        clear -Hl. induction trace as [|x trace IH]; [done|].
        simpl in Hl. destruct x as [u|n].
        -- destruct (last_input trace) as [u'|] eqn:Hu.
           ++ right. apply IH. congruence.
           ++ injection Hl as ->. left.
        -- right. by apply IH.
      * rewrite Hm, map_size_singleton in Hcount.
        rewrite length_app, map_size_empty. simpl. lia.
    + split; [|split; [done|lia]].
      destruct Hpend as [Hm | (j & w & Hm & Hd & Hl & Hq)]; [by left|].
      right. by exists j, w.
Qed.

Lemma run_settled (trace : list Event) : settled trace (run initial trace).
Proof.
  induction trace as [|e trace IH] using rev_ind.
  - split; [by left|]. split; [by intros q ?%elem_of_nil|].
    unfold run, initial. cbn [foldl searches timers]. rewrite map_size_empty. simpl. lia.
  - unfold run. rewrite foldl_app. simpl. by apply step_settled.
Qed.

(** X19. The search box, after any sequence of inputs and timer
    firings: at most one search is pending, for the trimmed text of the
    last input; a blank last input leaves none pending; every search
    made is for the trimmed, non-blank text of some input; and searches
    made and pending are no more than the inputs that scheduled one. *)
Theorem debounce_one_pending_search (trace : list Event) :
  let b := run initial trace in
  (timers b = ∅ ∨
   ∃ i v, timers b = {[ i := Server.trim v ]} ∧ debounceTimer b = Some i ∧
          last_input trace = Some v ∧ Server.nonempty (Server.trim v) = true) ∧
  (∀ v, last_input trace = Some v → Server.nonempty (Server.trim v) = false →
        timers b = ∅) ∧
  (∀ q, q ∈ searches b →
        Server.nonempty q = true ∧ ∃ v, Input v ∈ trace ∧ q = Server.trim v) ∧
  length (searches b) + size (timers b) ≤ length (List.filter nonblank trace).
Proof.
  intros b. pose proof (run_settled trace) as Hs. fold b in Hs.
  pose proof (last_input_blank_cancels trace b) as Hblank.
  destruct Hs as (Hpend & Hsearch & Hcount).
  split; [done|]. split; [|done].
  intros v Hv Hq. apply (Hblank v); [done..].
Qed.

End DebounceFacts.

Module ConfigFacts.
Import JSNum Client Config.

(** X20. [loadConfig]: a [mock] parameter of the query string decides
    [useMock] ([false] only for the value [0]) and an [api] parameter
    decides [apiBase]; without them the value of [config.json] is used,
    and without that the default; every other key of [config.json] is
    kept. *)
Theorem loadConfig_precedence (cfg : option (gmap string JSValue))
    (qs_mock qs_api : option string) :
  let c := loadConfig cfg qs_mock qs_api in
  c !! "useMock" =
    Some (match qs_mock with
          | Some v => JBoolean (negb (String.eqb v "0"))
          | None => default (JBoolean true) (cfg ≫= (.!! "useMock"))
          end) ∧
  c !! "apiBase" =
    Some (match qs_api with
          | Some u => JString u
          | None => default (JString "http://localhost:4000/api/v1")
                            (cfg ≫= (.!! "apiBase"))
          end) ∧
  (∀ k, k ≠ "useMock" → k ≠ "apiBase" → c !! k = cfg ≫= (.!! k)) ∧
  USE_MOCK c =
    match qs_mock with
    | Some v => negb (String.eqb v "0")
    | None => match cfg ≫= (.!! "useMock") with
              | Some x => truthy x
              | None => true
              end
    end.
Proof.
  intros c.
  set (d0 := (<["useMock" := JBoolean true]>
                (<["apiBase" := JString "http://localhost:4000/api/v1"]> ∅))
             : gmap string JSValue).
  set (d1 := match cfg with Some o => o ∪ d0 | None => d0 end).
  assert (∀ k, d1 !! k = match cfg ≫= (.!! k) with
                         | Some x => Some x
                         | None => d0 !! k
                         end) as Hd1.
  { intros k. unfold d1. destruct cfg as [o|]; simpl; [|done].
    rewrite lookup_union. destruct (o !! k), (d0 !! k); done. }
  assert (d0 !! "useMock" = Some (JBoolean true)) as H0m by (by unfold d0; rewrite lookup_insert_eq).
  assert (d0 !! "apiBase" = Some (JString "http://localhost:4000/api/v1")) as H0a.
  { unfold d0. rewrite lookup_insert_ne by done. by rewrite lookup_insert_eq. }
  assert (∀ k, k ≠ "useMock" → k ≠ "apiBase" → d0 !! k = None) as H0k.
  { intros k ? ?. unfold d0. by rewrite !lookup_insert_ne, lookup_empty by done. }
  assert (c !! "useMock" =
          Some (match qs_mock with
                | Some v => JBoolean (negb (String.eqb v "0"))
                | None => default (JBoolean true) (cfg ≫= (.!! "useMock"))
                end)) as Hm.
  { unfold c, loadConfig. fold d0. fold d1.
    destruct qs_api; rewrite ?lookup_insert_ne by done.
    all: destruct qs_mock; [by rewrite lookup_insert_eq|].
    all: rewrite Hd1, H0m.
    all: destruct cfg as [o|]; simpl; [by destruct (o !! _)|done]. }
  split; [exact Hm|]. split; [|split].
  - unfold c, loadConfig. fold d0. fold d1.
    destruct qs_api; [by rewrite lookup_insert_eq|].
    destruct qs_mock; rewrite ?lookup_insert_ne by done;
      rewrite Hd1, H0a; (destruct cfg as [o|]; simpl; [by destruct (o !! _)|done]).
  - intros k Hk1 Hk2. unfold c, loadConfig. fold d0. fold d1.
    destruct qs_api, qs_mock; rewrite ?lookup_insert_ne by done;
      rewrite Hd1, H0k by done; (destruct cfg as [o|]; simpl; [by destruct (o !! _)|done]).
  - unfold USE_MOCK, get. rewrite Hm. simpl.
    destruct qs_mock; [done|]. destruct cfg as [o|]; simpl; [by destruct (o !! _)|done].
Qed.

End ConfigFacts.
